(** * Tableau-SQL-Extractor: the extraction routine of [tableau_sql_extractor.py]

    A shallow embedding of [extract_sql_from_tdsx] and of the library
    primitives it calls, followed by the properties of the routine.

    Conventions of the embedding.
    - A Python [str] is a Rocq [string] whose characters are read as the code
      points U+0000..U+00FF; [isspace] and [isalnum] are Python's tables on
      that range.  Strings with code points above U+00FF are outside the model.
    - [xml.etree.ElementTree.Element] is the inductive [Element]; the [tail]
      field, which the routine never reads, is left out.
    - The result [dict] is an association list in insertion order: assigning
      to a key that is present keeps its position, a new key goes last.
    - [print] appends one [message] to the standard output of the state.
    - The zip archive and the XML parser are represented by what they answer:
      [namelist], and for each entry name the outcome of reading and parsing
      it (an [Element] or the exception raised). *)

From Stdlib Require Import Ascii.
From stdpp Require Import base option list strings pretty gmap.

(** ** Python strings *)

Module Str.

Definition ord (c : ascii) : N := N_of_ascii c.

Definition between (lo hi n : N) : bool := ((lo <=? n) && (n <=? hi))%N.

(** [str.isspace] on one character. *)
Definition isspace (c : ascii) : bool :=
  let n := ord c in
  between 9 13 n || between 28 32 n || (n =? 133)%N || (n =? 160)%N.

(** [str.isalnum] on one character. *)
Definition isalnum (c : ascii) : bool :=
  let n := ord c in
  between 48 57 n || between 65 90 n || between 97 122 n
  || (n =? 170)%N || between 178 179 n || (n =? 181)%N
  || between 185 186 n || between 188 190 n
  || between 192 214 n || between 216 246 n || between 248 255 n.

(** The characters of the class [[A-Za-z0-9]]. *)
Definition ascii_alnum (c : ascii) : bool :=
  let n := ord c in
  between 48 57 n || between 65 90 n || between 97 122 n.

Fixpoint lstrip (s : string) : string :=
  match s with
  | "" => ""
  | String c s' => if isspace c then lstrip s' else s
  end.

Fixpoint rstrip (s : string) : string :=
  match s with
  | "" => ""
  | String c s' =>
      match rstrip s' with
      | "" => if isspace c then "" else String c ""
      | r => String c r
      end
  end.

(** [str.strip()] without argument: leading, then trailing white space. *)
Definition strip (s : string) : string := rstrip (lstrip s).

(** Empty, or white space only. *)
Fixpoint all_space (s : string) : bool :=
  match s with
  | "" => true
  | String c s' => isspace c && all_space s'
  end.

(** Truth value of a string in a condition. *)
Definition truthy (s : string) : bool := negb (String.eqb s "").

(** [s.endswith(suffix)]. *)
Definition endswith (s suffix : string) : bool :=
  (String.length suffix <=? String.length s)%nat
  && String.eqb
       (String.substring (String.length s - String.length suffix)
                  (String.length suffix) s)
       suffix.

(** [s.startswith(prefix)]. *)
Definition startswith (s prefix : string) : bool :=
  String.eqb (String.substring 0 (String.length prefix) s) prefix.

(** ["".join(f(c) for c in s)] for a function giving one character. *)
Fixpoint map_chars (f : ascii → ascii) (s : string) : string :=
  match s with
  | "" => ""
  | String c s' => String (f c) (map_chars f s')
  end.

End Str.

(** ** Element trees and the two path queries *)

Local Unset Elimination Schemes.
Inductive Element : Type :=
  Elem (tag : string) (attrib : gmap string string)
       (text : option string) (children : list Element).
Local Set Elimination Schemes.

Definition tag (e : Element) : string :=
  match e with Elem t _ _ _ => t end.
Definition attrib (e : Element) : gmap string string :=
  match e with Elem _ a _ _ => a end.
Definition text (e : Element) : option string :=
  match e with Elem _ _ x _ => x end.
Definition children (e : Element) : list Element :=
  match e with Elem _ _ _ cs => cs end.

(** [e.get(key, default)]. *)
Definition get (e : Element) (key default : string) : string :=
  match attrib e !! key with
  | Some v => v
  | None => default
  end.

(** [e.get(key)], whose default is [None]. *)
Definition get_opt (e : Element) (key : string) : option string :=
  attrib e !! key.

(** [e.iter()]: the element, then its subtree, in document order. *)
Fixpoint iter (e : Element) : list Element :=
  match e with
  | Elem _ _ _ cs =>
      e :: (fix iter_all (l : list Element) : list Element :=
              match l with
              | [] => []
              | c :: l' => iter c ++ iter_all l'
              end) cs
  end.

(** The elements strictly below [e], in document order. *)
Definition descendants (e : Element) : list Element :=
  flat_map iter (children e).

(** [e.findall('.//' + t)]. *)
Definition findall (e : Element) (t : string) : list Element :=
  filter (λ x, tag x = t) (descendants e).

(** [e.findall('.//' + t + '[@' + key + '="' + value + '"]')]. *)
Definition findall_attr (e : Element) (t key value : string) : list Element :=
  filter (λ x, get_opt x key = Some value) (findall e t).

(** [e.find('.//' + t)]: the first match, or [None]. *)
Definition find (e : Element) (t : string) : option Element :=
  head (findall e t).

(** ** The result dictionary *)

Definition dict : Type := list (string * string).

(** [d[k] = v]. *)
Fixpoint dict_set (k v : string) (d : dict) : dict :=
  match d with
  | [] => [(k, v)]
  | (k', v') :: d' =>
      if String.eqb k k' then (k, v) :: d' else (k', v') :: dict_set k v d'
  end.

(** [d.get(k)]. *)
Fixpoint dict_get (k : string) (d : dict) : option string :=
  match d with
  | [] => None
  | (k', v') :: d' => if String.eqb k k' then Some v' else dict_get k d'
  end.

Definition keys (d : dict) : list string := map fst d.

(** ** What the routine prints *)

Inductive message : Type :=
  | MsgFileNotFound (tdsx_path : string)
  | MsgNoTdsFile
  | MsgProcessing (tds_file : string)
  | MsgFoundSQL (key : string)
  | MsgFoundInitialSQL (name : string)
  | MsgNotAZipFile (tdsx_path : string)
  | MsgParseError
  | MsgUnexpectedError
  | MsgSaved (output_path : string).

(** The local variable [sql_queries] and the standard output so far. *)
Record state : Type := State { sql_queries : dict; stdout : list message }.

Definition print (m : message) (st : state) : state :=
  {| sql_queries := sql_queries st; stdout := stdout st ++ [m] |}.

Definition assign (k v : string) (st : state) : state :=
  {| sql_queries := dict_set k v (sql_queries st); stdout := stdout st |}.

(** ** Exceptions, the archive and the file system *)

Inductive exn : Type := BadZipFile | ParseError | OSError | OtherException.

Inductive outcome (A : Type) : Type :=
  | Raises (e : exn)
  | Returns (a : A).
Arguments Raises {A} e.
Arguments Returns {A} a.

(** An open [zipfile.ZipFile]: [namelist()], and for an entry name the outcome
    of [ET.fromstring(zip_ref.open(name).read())]. *)
Record ZipFile : Type := Zip {
  namelist : list string;
  parse_entry : string → outcome Element
}.

Record World : Type := Env {
  path_exists : bool;                (* os.path.exists(tdsx_path) *)
  open_zip : outcome ZipFile;        (* zipfile.ZipFile(tdsx_path, 'r') *)
  makedirs_ok : bool;                (* os.makedirs(output_dir, exist_ok=True) *)
  writable : string → bool;          (* open(output_path, 'w') succeeds *)
  files : gmap string string         (* text files on disk, by path *)
}.

(** ** The loops of [extract_sql_from_tdsx], innermost first *)

(** [f"{conn_name}_query_{rel_idx}" if len(relations) > 1 else conn_name]. *)
Definition key_of (conn_name : string) (relations : list Element)
    (rel_idx : nat) : string :=
  if (1 <? length relations)%nat
  then conn_name +:+ "_query_" +:+ pretty rel_idx
  else conn_name.

(** Body of [for rel_idx, relation in enumerate(relations, 1)]. *)
Definition relation_body (conn_name : string) (relations : list Element)
    (rel_idx : nat) (relation : Element) (st : state) : state :=
  match text relation with
  | Some sql_text =>
      if Str.truthy sql_text && Str.truthy (Str.strip sql_text) then
        let key := key_of conn_name relations rel_idx in
        print (MsgFoundSQL key) (assign key (Str.strip sql_text) st)
      else st
  | None => st
  end.

Fixpoint for_relations (conn_name : string) (relations : list Element)
    (rel_idx : nat) (todo : list Element) (st : state) : state :=
  match todo with
  | [] => st
  | relation :: todo' =>
      for_relations conn_name relations (S rel_idx) todo'
        (relation_body conn_name relations rel_idx relation st)
  end.

(** [conn_name = connection.get('class', f'connection_{idx}')]. *)
Definition conn_name (idx : nat) (connection : Element) : string :=
  get connection "class" ("connection_" +:+ pretty idx).

(** [relations = connection.findall('.//relation[@type="text"]')]. *)
Definition text_relations (connection : Element) : list Element :=
  findall_attr connection "relation" "type" "text".

(** Body of [for idx, connection in enumerate(connections, 1)]. *)
Definition connection_body (idx : nat) (connection : Element)
    (st : state) : state :=
  let relations := text_relations connection in
  for_relations (conn_name idx connection) relations 1 relations st.

Fixpoint for_connections (idx : nat) (todo : list Element)
    (st : state) : state :=
  match todo with
  | [] => st
  | connection :: todo' =>
      for_connections (S idx) todo' (connection_body idx connection st)
  end.

(** Body of [for named_conn in named_connections]. *)
Definition named_connection_body (named_conn : Element)
    (st : state) : state :=
  let name := get named_conn "name" "unnamed" in
  match find named_conn "connection" with
  | Some connection_elem =>
      match get_opt connection_elem "one-time-sql" with
      | Some initial_sql =>
          if Str.truthy initial_sql && Str.truthy (Str.strip initial_sql) then
            print (MsgFoundInitialSQL name)
              (assign (name +:+ "_initial_sql") (Str.strip initial_sql) st)
          else st
      | None => st
      end
  | None => st
  end.

Fixpoint for_named_connections (todo : list Element) (st : state) : state :=
  match todo with
  | [] => st
  | named_conn :: todo' =>
      for_named_connections todo' (named_connection_body named_conn st)
  end.

(** What is done with the parsed [root] of one descriptor. *)
Definition process_root (root : Element) (st : state) : state :=
  let connections := findall root "connection" in
  let st := for_connections 1 connections st in
  let named_connections := findall root "named-connection" in
  for_named_connections named_connections st.

(** [for tds_file in tds_files]; stops at the first exception. *)
Fixpoint for_tds_files (zip_ref : ZipFile) (todo : list string)
    (st : state) : state * option exn :=
  match todo with
  | [] => (st, None)
  | tds_file :: todo' =>
      let st := print (MsgProcessing tds_file) st in
      match parse_entry zip_ref tds_file with
      | Raises e => (st, Some e)
      | Returns root => for_tds_files zip_ref todo' (process_root root st)
      end
  end.

(** The three [except] clauses. *)
Definition handler (tdsx_path : string) (e : exn) : message :=
  match e with
  | BadZipFile => MsgNotAZipFile tdsx_path
  | ParseError => MsgParseError
  | OSError | OtherException => MsgUnexpectedError
  end.

Definition is_tds (f : string) : bool := Str.endswith f ".tds".

(** The [try] statement.  The boolean tells whether the [return] inside the
    [with] block was taken. *)
Definition try_block (w : World) (tdsx_path : string)
    (st : state) : state * bool :=
  match open_zip w with
  | Raises e => (print (handler tdsx_path e) st, false)
  | Returns zip_ref =>
      let tds_files := filter (λ f, is_tds f = true) (namelist zip_ref) in
      match tds_files with
      | [] => (print MsgNoTdsFile st, true)
      | _ :: _ =>
          match for_tds_files zip_ref tds_files st with
          | (st', None) => (st', false)
          | (st', Some e) => (print (handler tdsx_path e) st', false)
          end
      end
  end.

(** The character kept or replaced in [safe_name]. *)
Definition safe_char (c : ascii) : ascii :=
  if Str.isalnum c || Ascii.eqb c "-" || Ascii.eqb c "_" then c else "_"%char.

Definition safe_name (name : string) : string := Str.map_chars safe_char name.

(** [os.path.join(a, b)] with the POSIX separator. *)
Definition path_join (a b : string) : string :=
  if Str.startswith b "/" then b
  else if String.eqb a "" || Str.endswith a "/" then a +:+ b
  else a +:+ "/" +:+ b.

(** [for name, sql in sql_queries.items()]: write one file per entry; an
    [open] that fails raises, and the files written before stay. *)
Fixpoint for_items (w : World) (output_dir : string) (todo : dict)
    (fs : gmap string string) (out : list message)
    : option exn * gmap string string * list message :=
  match todo with
  | [] => (None, fs, out)
  | (name, sql) :: todo' =>
      let output_path := path_join output_dir (safe_name name +:+ ".sql") in
      if writable w output_path then
        for_items w output_dir todo' (<[output_path := sql]> fs)
          (out ++ [MsgSaved output_path])
      else (Some OSError, fs, out)
  end.

(** What a call leaves behind: the value returned or the exception that
    escaped, the standard output, and the files. *)
Record Result : Type := Res {
  value : outcome dict;
  output : list message;
  disk : gmap string string
}.

Definition dict_truthy (d : dict) : bool :=
  match d with
  | [] => false
  | _ :: _ => true
  end.

Definition init : state := {| sql_queries := []; stdout := [] |}.

Definition extract_sql_from_tdsx (w : World) (tdsx_path : string)
    (output_dir : option string) : Result :=
  if negb (path_exists w) then
    {| value := Returns []; output := [MsgFileNotFound tdsx_path];
       disk := files w |}
  else
    let '(st, returned) := try_block w tdsx_path init in
    if returned then
      {| value := Returns (sql_queries st); output := stdout st;
         disk := files w |}
    else
      match output_dir with
      | Some dir =>
          if Str.truthy dir && dict_truthy (sql_queries st) then
            if makedirs_ok w then
              match for_items w dir (sql_queries st) (files w) (stdout st) with
              | (None, fs, out) =>
                  {| value := Returns (sql_queries st); output := out;
                     disk := fs |}
              | (Some e, fs, out) =>
                  {| value := Raises e; output := out; disk := fs |}
              end
            else
              {| value := Raises OSError; output := stdout st;
                 disk := files w |}
          else
            {| value := Returns (sql_queries st); output := stdout st;
               disk := files w |}
      | None =>
          {| value := Returns (sql_queries st); output := stdout st;
             disk := files w |}
      end.

(** ** Vocabulary of the statements *)

(** The relation carries SQL: its text is not empty after trimming. *)
Definition has_sql (r : Element) : bool :=
  match text r with
  | Some t => Str.truthy (Str.strip t)
  | None => false
  end.

(** The entries of the relations [rels], numbered from [i] by their position
    among all of [rels], those without SQL left out. *)
Fixpoint positional_entries (name : string) (i : nat)
    (rels : list Element) : dict :=
  match rels with
  | [] => []
  | r :: rels' =>
      match text r with
      | Some t =>
          if Str.truthy (Str.strip t)
          then (name +:+ "_query_" +:+ pretty i, Str.strip t)
                 :: positional_entries name (S i) rels'
          else positional_entries name (S i) rels'
      | None => positional_entries name (S i) rels'
      end
  end.

(** The same entries numbered among the relations that carry SQL only. *)
Definition ranked_entries (name : string) (rels : list Element) : dict :=
  positional_entries name 1 (filter (λ r, has_sql r = true) rels).

(** ** Documents and archives used in the examples *)

Module Fixture.

Definition rel (sql : string) : Element :=
  Elem "relation" {[ "type" := "text" ]} (Some sql) [].

Definition conn (class : string) (cs : list Element) : Element :=
  Elem "connection" {[ "class" := class ]} None cs.

Definition anon_conn (cs : list Element) : Element :=
  Elem "connection" ∅ None cs.

Definition named (name sql : string) : Element :=
  Elem "named-connection" {[ "name" := name ]} None
    [Elem "connection" {[ "one-time-sql" := sql ]} None []].

Definition datasource (cs : list Element) : Element :=
  Elem "datasource" ∅ None cs.

(** An archive holding [readme.txt] and one descriptor per element of
    [docs], named [0.tds], [1.tds], ... *)
Definition entry_name (i : nat) : string := pretty i +:+ ".tds".

Definition archive (docs : list (outcome Element)) : ZipFile :=
  {| namelist := "readme.txt" :: map entry_name (seq 0 (length docs));
     parse_entry := λ f,
       match list_find (λ i, entry_name i = f) (seq 0 (length docs)) with
       | Some (_, i) => default (Raises OtherException) (docs !! i)
       | None => Raises OtherException
       end |}.

(** An existing archive, a writable empty disk. *)
Definition world (docs : list (outcome Element)) : World :=
  {| path_exists := true; open_zip := Returns (archive docs);
     makedirs_ok := true; writable := λ _, true; files := ∅ |}.

Definition one (cs : list Element) : World :=
  world [Returns (datasource cs)].

(** A file that exists and is not a zip archive. *)
Definition not_a_zip : World :=
  {| path_exists := true; open_zip := Raises BadZipFile;
     makedirs_ok := true; writable := λ _, true; files := ∅ |}.

(** A connection whose label needs a safe name, and a named connection. *)
Definition two_entries : World :=
  one [conn "a.b" [rel "SELECT 1"]; named "src" "SELECT 3 "].

(** Three descriptors, the second of which is not well-formed XML. *)
Definition broken_second : list (outcome Element) :=
  [Returns (datasource [conn "pg" [rel "SELECT 1"]]);
   Raises ParseError;
   Returns (datasource [conn "my" [rel "SELECT 2"]])].

End Fixture.

(** ** How the state evolves

    Every change the loops make to the state is a [print] or an assignment of
    a stripped, non-empty text; [steps st st'] says that [st'] is reached from
    [st] by such changes. *)

Inductive steps : state → state → Prop :=
  | steps_refl st : steps st st
  | steps_print st st' m : steps st st' → steps st (print m st')
  | steps_assign st st' k t :
      Str.strip t ≠ "" → steps st st' → steps st (assign k (Str.strip t) st').

(** A value of the mapping is well formed when it is not empty and stripping
    leaves it unchanged. *)
Definition trimmed (v : string) : Prop := v ≠ "" ∧ Str.strip v = v.

(** ** The events of the [try] block

    A finer account of the same changes: an entry found in a relation, an
    initial SQL found in a named connection, or a notice that stores
    nothing.  [run st st'] is a sequence of such events. *)

(** The label a message reports as found, if it reports one. *)
Definition label_of (m : message) : option string :=
  match m with
  | MsgFoundSQL key => Some key
  | MsgFoundInitialSQL name => Some (name +:+ "_initial_sql")
  | _ => None
  end.

(** The messages of the [try] block that report no entry. *)
Definition notice (m : message) : bool :=
  match m with
  | MsgNoTdsFile | MsgProcessing _ | MsgNotAZipFile _
  | MsgParseError | MsgUnexpectedError => true
  | _ => false
  end.

Inductive event : state → state → Prop :=
  | event_found st key t :
      Str.strip t ≠ "" →
      event st (print (MsgFoundSQL key) (assign key (Str.strip t) st))
  | event_initial st name t :
      Str.strip t ≠ "" →
      event st (print (MsgFoundInitialSQL name)
                  (assign (name +:+ "_initial_sql") (Str.strip t) st))
  | event_notice st m :
      notice m = true → event st (print m st).

Inductive run : state → state → Prop :=
  | run_refl st : run st st
  | run_event st st' st'' : run st st' → event st' st'' → run st st''.

(** The file written for the label [name] in [output_dir]. *)
Definition file_of (output_dir name : string) : string :=
  path_join output_dir (safe_name name +:+ ".sql").

(** All characters of [s] satisfy [p]. *)
Fixpoint all_chars (p : ascii → bool) (s : string) : bool :=
  match s with
  | "" => true
  | String c s' => p c && all_chars p s'
  end.

(** Kept as it is by [safe_name]. *)
Definition kept (c : ascii) : bool :=
  Str.isalnum c || Ascii.eqb c "-" || Ascii.eqb c "_".

(** The labels in the order in which they are first met in [l]. *)
Definition first_seen (l : list string) : list string :=
  reverse (remove_dups (reverse l)).

(** The labels reported on an output, in order, repetitions included. *)
Definition reported (out : list message) : list string := omap label_of out.

(** The mapping holds, in order, the labels first reported on the output. *)
Definition in_step (st : state) : Prop :=
  keys (sql_queries st) = first_seen (reported (stdout st)).

(** The messages of the [try] block: notices and reports, never [Saved] or
    [File not found]. *)
Definition from_try (m : message) : Prop :=
  notice m = true ∨ is_Some (label_of m).

(** The state in which the [try] statement is left, or the one of the early
    return for a path that does not exist. *)
Definition after_try (w : World) (tdsx_path : string) : state :=
  if path_exists w then (try_block w tdsx_path init).1
  else {| sql_queries := []; stdout := [MsgFileNotFound tdsx_path] |}.

(** The entries at the front of [todo] whose files can all be opened. *)
Fixpoint written (w : World) (output_dir : string) (todo : dict) : dict :=
  match todo with
  | [] => []
  | (name, sql) :: todo' =>
      if writable w (file_of output_dir name)
      then (name, sql) :: written w output_dir todo'
      else []
  end.

(** The disk after the files of [entries] have been written in order. *)
Definition write_all (output_dir : string) (entries : dict)
    (fs : gmap string string) : gmap string string :=
  foldl (λ fs kv, <[file_of output_dir kv.1 := kv.2]> fs) fs entries.

(** The [Saved] messages of [entries]. *)
Definition saved (output_dir : string) (entries : dict) : list message :=
  (λ kv, MsgSaved (file_of output_dir kv.1)) <$> entries.

(** ** Worlds used in the examples of the sink *)

Module Scenario.

(** The same world with an output directory that cannot be created. *)
Definition no_mkdir (w : World) : World :=
  {| path_exists := path_exists w; open_zip := open_zip w;
     makedirs_ok := false; writable := writable w; files := files w |}.

(** The same world in which [path] cannot be opened for writing. *)
Definition locked (path : string) (w : World) : World :=
  {| path_exists := path_exists w; open_zip := open_zip w;
     makedirs_ok := makedirs_ok w;
     writable := λ f, negb (String.eqb f path) && writable w f;
     files := files w |}.

(** The same world with the text [content] already at [path]. *)
Definition with_file (path content : string) (w : World) : World :=
  {| path_exists := path_exists w; open_zip := open_zip w;
     makedirs_ok := makedirs_ok w; writable := writable w;
     files := <[path := content]> (files w) |}.

(** No file at the path given to the routine. *)
Definition missing : World :=
  {| path_exists := false; open_zip := Raises OtherException;
     makedirs_ok := true; writable := λ _, true; files := ∅ |}.

(** Two connections of the same class and a named connection. *)
Definition repeated : World :=
  Fixture.one [Fixture.conn "pg" [Fixture.rel "SELECT 1"];
               Fixture.conn "pg" [Fixture.rel "SELECT 2"];
               Fixture.named "src" "SET x"].

(** Two descriptors: the first is sound, reading the second raises
    [BadZipFile]. *)
Definition corrupt_member : list (outcome Element) :=
  [Returns (Fixture.datasource [Fixture.conn "pg" [Fixture.rel "SELECT 1"]]);
   Raises BadZipFile].

(** Three labels with three different safe names. *)
Definition three : World :=
  Fixture.one [Fixture.conn "a" [Fixture.rel "SELECT 1"];
               Fixture.conn "b" [Fixture.rel "SELECT 2"];
               Fixture.conn "c" [Fixture.rel "SELECT 3"]].

End Scenario.

(** The first and the last character of a string. *)
Definition first_char (s : string) : option ascii :=
  match s with
  | "" => None
  | String c _ => Some c
  end.

Fixpoint last_char (s : string) : option ascii :=
  match s with
  | "" => None
  | String c s' =>
      match s' with
      | "" => Some c
      | String _ _ => last_char s'
      end
  end.

(** Not the path separator. *)
Definition not_slash (c : ascii) : bool := negb (Ascii.eqb c "/").

(** * [download_from_tableau_server] and [cli]

    The network and [urllib.parse.urlparse] are represented by what they
    answer.  The regular expression of the download is the matcher
    [re_search] below.  The consecutive [print] calls of one fixed text (the
    usage, the two lines of a note) are one message. *)

(** ** Strings, continued *)

(** [sub in s]. *)
Fixpoint contains (s sub : string) : bool :=
  Str.startswith s sub
  || match s with
     | "" => false
     | String _ s' => contains s' sub
     end.

(** The rest of [s] after [prefix], when [s] starts with it. *)
Fixpoint after_prefix (prefix s : string) : option string :=
  match prefix with
  | "" => Some s
  | String a prefix' =>
      match s with
      | "" => None
      | String b s' => if Ascii.eqb a b then after_prefix prefix' s' else None
      end
  end.

(** The longest run of characters satisfying [p] at the start of [s], and
    what follows it. *)
Fixpoint span (p : ascii → bool) (s : string) : string * string :=
  match s with
  | "" => ("", "")
  | String c s' =>
      if p c then let '(run, rest) := span p s' in (String c run, rest)
      else ("", s)
  end.

(** The class [[^/]]. *)
Definition site_char (c : ascii) : bool := negb (Ascii.eqb c "/").

(** The class [[a-zA-Z0-9\-]]. *)
Definition id_char (c : ascii) : bool :=
  Str.ascii_alnum c || Ascii.eqb c "-".

(** A match of [/site/([^/]+)/datasources/([a-zA-Z0-9\-]+)] that starts at
    the first character: the two groups.  The first group is followed by a
    [/] and contains none, so it is the whole run up to the next [/]; the
    second is greedy and followed by nothing. *)
Definition match_here (s : string) : option (string * string) :=
  match after_prefix "/site/" s with
  | None => None
  | Some s1 =>
      let '(site_name, s2) := span site_char s1 in
      if String.eqb site_name "" then None
      else
        match after_prefix "/datasources/" s2 with
        | None => None
        | Some s3 =>
            let '(datasource_id, _) := span id_char s3 in
            if String.eqb datasource_id "" then None
            else Some (site_name, datasource_id)
        end
  end.

(** [re.search] with that pattern: the leftmost match. *)
Fixpoint re_search (s : string) : option (string * string) :=
  match match_here s with
  | Some groups => Some groups
  | None =>
      match s with
      | "" => None
      | String _ s' => re_search s'
      end
  end.

Definition option_truthy (o : option string) : bool :=
  match o with
  | Some s => Str.truthy s
  | None => false
  end.

(** ** The download *)

Inductive net_message : Type :=
  | NetAttempting (url : string)
  | NetCouldNotParse
  | NetConstructed (api_url : string)
  | NetNoToken
  | NetDownloading
  | NetDownloaded (name : string)
  | NetHTTPError
  | NetAuthenticationFailed
  | NetNotFound
  | NetError.

(** What becomes of [requests.get], [raise_for_status] and the copy into a
    named temporary file: an HTTP error status, another exception (with the
    temporary file it leaves behind, if it was created already), or the
    name of the complete file. *)
Inductive transfer : Type :=
  | HTTPError (status_code : nat)
  | Broken (leftover : option string)
  | Completed (name : string).

Record Internet : Type := Web {
  urlparse : string → outcome (string * string);   (* scheme, netloc *)
  request : string → list (string * string) → transfer
}.

(** What a download leaves behind: the value returned or the exception that
    escaped, what was printed, and the temporary file on disk, if any. *)
Record Download : Type := Dl {
  returned : outcome (option string);
  said : list net_message;
  temp : option string
}.

(** The API URL for a web URL, from the groups of the match. *)
Definition api_url_of (scheme netloc site_name datasource_id : string)
    : string :=
  let base_url := scheme +:+ "://" +:+ netloc in
  base_url +:+ "/api/3.17/sites/" +:+ site_name +:+ "/datasources/"
    +:+ datasource_id +:+ "/content".

(** The [headers] dictionary, in insertion order. *)
Definition headers_of (access_token : option string)
    : list (string * string) :=
  match access_token with
  | Some token =>
      if Str.truthy token then
        [("Accept", "application/octet-stream");
         ("Authorization", "Bearer " +:+ token);
         ("X-Tableau-Auth", token)]
      else [("Accept", "application/octet-stream")]
  | None => [("Accept", "application/octet-stream")]
  end.

(** The [try] statement of the download. *)
Definition fetch (net : Internet) (api_url : string)
    (headers : list (string * string)) (out : list net_message) : Download :=
  let out := out ++ [NetDownloading] in
  match request net api_url headers with
  | Completed name =>
      {| returned := Returns (Some name);
         said := out ++ [NetDownloaded name]; temp := Some name |}
  | HTTPError status_code =>
      {| returned := Returns None;
         said := out ++ [NetHTTPError]
                 ++ (if (status_code =? 401)%nat then [NetAuthenticationFailed]
                     else if (status_code =? 404)%nat then [NetNotFound]
                     else []);
         temp := None |}
  | Broken leftover =>
      {| returned := Returns None; said := out ++ [NetError];
         temp := leftover |}
  end.

Definition download_from_tableau_server (net : Internet) (url : string)
    (access_token : option string) : Download :=
  let out := [NetAttempting url] in
  match urlparse net url with
  | Raises e => {| returned := Raises e; said := out; temp := None |}
  | Returns (scheme, netloc) =>
      let resolved :=
        if contains url "/api/" then Some (url, out)
        else
          match re_search url with
          | None => None
          | Some (site_name, datasource_id) =>
              let api_url :=
                api_url_of scheme netloc site_name datasource_id in
              Some (api_url, out ++ [NetConstructed api_url])
          end in
      match resolved with
      | None =>
          {| returned := Returns None; said := out ++ [NetCouldNotParse];
             temp := None |}
      | Some (api_url, out) =>
          let out :=
            if option_truthy access_token then out else out ++ [NetNoToken] in
          fetch net api_url (headers_of access_token) out
      end
  end.

(** The note printed when no token is given. *)
Definition no_token_note (token : option string) : list net_message :=
  if option_truthy token then [] else [NetNoToken].

(** ** The command line *)

Inductive line : Type :=
  | Usage
  | FromDownload (m : net_message)
  | Extracting (tdsx_path : string)
  | FromExtract (m : message)
  | FoundQueries (n : nat)
  | Query (name sql : string)
  | NoQueries
  | CleanedUp (temp_file : string).

(** [sys.exit(code)], the end of the function, or an exception that nothing
    catches. *)
Inductive ending : Type :=
  | Exited (code : nat)
  | Finished
  | Crashed (e : exn).

(** The machine the command runs on: the network, what the extraction
    finds for a path, and whether [os.unlink] of a path succeeds. *)
Record Machine : Type := Host {
  net : Internet;
  at_path : string → World;
  unlink_ok : string → bool
}.

(** What a run of the command leaves behind: how it ended, the console, the
    call of the extraction if there was one, the files removed, and the
    temporary file of the download. *)
Record Session : Type := Ran {
  status : ending;
  console : list line;
  extraction : option Result;
  removed : list string;
  downloaded : option string
}.

(** The [while] loop over [sys.argv] from index 2 on; [todo] is what is left
    from the index on. *)
Fixpoint parse_args (todo : list string) (output_dir access_token : option string)
    : option string * option string :=
  match todo with
  | [] => (output_dir, access_token)
  | arg :: todo' =>
      match String.eqb arg "--token", todo' with
      | true, token :: todo'' => parse_args todo'' output_dir (Some token)
      | _, _ =>
          if negb (option_truthy output_dir) && negb (Str.startswith arg "--")
          then parse_args todo' (Some arg) access_token
          else parse_args todo' output_dir access_token
      end
  end.

Definition help_flags : list string := ["--help"; "-h"; "help"].

Definition is_url (path_or_url : string) : bool :=
  Str.startswith path_or_url "http://" || Str.startswith path_or_url "https://".

(** The [finally] clause: the lines it adds and the files it removes. *)
Definition finally_block (m : Machine) (temp_file : option string)
    : list line * list string :=
  match temp_file with
  | Some f =>
      if Str.truthy f && path_exists (at_path m f) then
        if unlink_ok m f then ([CleanedUp f], [f]) else ([], [])
      else ([], [])
  | None => ([], [])
  end.

(** The [try] body from the [Extracting] message on. *)
Definition extract_and_show (m : Machine) (tdsx_path : string)
    (output_dir : option string) : ending * list line * Result :=
  let r := extract_sql_from_tdsx (at_path m tdsx_path) tdsx_path output_dir in
  let out := Extracting tdsx_path :: (FromExtract <$> output r) in
  match value r with
  | Raises e => (Crashed e, out, r)
  | Returns sql_queries =>
      if dict_truthy sql_queries then
        (Finished,
         out ++ FoundQueries (length sql_queries)
             :: ((λ kv, Query kv.1 kv.2) <$> sql_queries), r)
      else (Finished, out ++ [NoQueries], r)
  end.

Definition cli (m : Machine) (argv : list string) : Session :=
  if (length argv <? 2)%nat
     || bool_decide (default "" (argv !! 1) ∈ help_flags) then
    {| status := Exited (if (1 <? length argv)%nat then 0 else 1);
       console := [Usage]; extraction := None; removed := [];
       downloaded := None |}
  else
    let path_or_url := default "" (argv !! 1) in
    let '(output_dir, access_token) := parse_args (drop 2 argv) None None in
    if is_url path_or_url then
      let d := download_from_tableau_server (net m) path_or_url access_token in
      let out := FromDownload <$> said d in
      match returned d with
      | Raises e =>
          {| status := Crashed e; console := out; extraction := None;
             removed := []; downloaded := temp d |}
      | Returns tdsx_path =>
          match tdsx_path with
          | Some f =>
              if Str.truthy f then
                let '(st, shown, r) := extract_and_show m f output_dir in
                let '(closing, gone) := finally_block m (Some f) in
                {| status := st; console := out ++ shown ++ closing;
                   extraction := Some r; removed := gone;
                   downloaded := temp d |}
              else
                {| status := Exited 1; console := out; extraction := None;
                   removed := []; downloaded := temp d |}
          | None =>
              {| status := Exited 1; console := out; extraction := None;
                 removed := []; downloaded := temp d |}
          end
      end
    else
      let '(st, shown, r) := extract_and_show m path_or_url output_dir in
      let '(closing, gone) := finally_block m None in
      {| status := st; console := shown ++ closing; extraction := Some r;
         removed := gone; downloaded := None |}.

(** ** Vocabulary for the command line *)

(** The arguments after the path as the loop reads them: [--token] with the
    argument after it, or one argument alone. *)
Inductive item : Type :=
  | Token (value : string)
  | Plain (arg : string).

Definition render (i : item) : list string :=
  match i with
  | Token value => ["--token"; value]
  | Plain arg => [arg]
  end.

Definition flatten (items : list item) : list string :=
  concat (render <$> items).

(** The values given with [--token], in order. *)
Definition token_values (items : list item) : list string :=
  omap (λ i, match i with Token value => Some value | Plain _ => None end)
       items.

(** The arguments alone that do not start with [--], in order. *)
Definition positionals (items : list item) : list string :=
  omap (λ i, match i with
             | Plain arg =>
                 if Str.startswith arg "--" then None else Some arg
             | Token _ => None
             end)
       items.

(** [--token] occurs alone at most as the last item. *)
Definition well_split (items : list item) : Prop :=
  ∀ before after, items = before ++ Plain "--token" :: after → after = [].

(** The items of a list of arguments, read from the left. *)
Fixpoint itemize (l : list string) : list item :=
  match l with
  | [] => []
  | a :: l' =>
      match String.eqb a "--token", l' with
      | true, v :: l'' => Token v :: itemize l''
      | _, _ => Plain a :: itemize l'
      end
  end.

(** The first non-empty string of [l]; without one, the last string. *)
Definition first_truthy (l : list string) : option string :=
  match filter (λ a, a ≠ "") l with
  | a :: _ => Some a
  | [] => last l
  end.

(** ** A machine used in the examples of the command *)

Module Lab.

(** The web page of a data source and the API URL it stands for. *)
Definition page : string :=
  "https://tableau.example.com/#/site/mysite/datasources/abc-123".

Definition endpoint : string :=
  "https://tableau.example.com/api/3.17/sites/mysite/datasources/abc-123/content".

(** A server that has the data source at [endpoint] and nothing else. *)
Definition server : Internet :=
  {| urlparse := λ _, Returns ("https", "tableau.example.com");
     request := λ api_url _,
       if String.eqb api_url endpoint then Completed "/tmp/t1.tdsx"
       else HTTPError 404 |}.

(** A server on which every transfer breaks after the temporary file was
    created. *)
Definition flaky : Internet :=
  {| urlparse := λ _, Returns ("https", "tableau.example.com");
     request := λ _ _, Broken (Some "/tmp/t2.tdsx") |}.

(** Every path holds the archive of [Fixture.two_entries]. *)
Definition host : Machine :=
  {| net := server; at_path := λ _, Fixture.two_entries;
     unlink_ok := λ _, true |}.

Definition flaky_host : Machine :=
  {| net := flaky; at_path := λ _, Fixture.two_entries;
     unlink_ok := λ _, true |}.

End Lab.

(** * Properties *)

(** ** Strings *)

Section strings.
Import Str.

Lemma truthy_true s : truthy s = true ↔ s ≠ "".
Proof.
  unfold truthy. rewrite negb_true_iff.
  destruct (String.eqb_spec s ""); split; congruence.
Qed.

Lemma truthy_false s : truthy s = false ↔ s = "".
Proof.
  unfold truthy. rewrite negb_false_iff. apply String.eqb_eq.
Qed.

(** The guard [s and s.strip()] is decided by [s.strip()] alone. *)
Lemma guard_strip s : truthy s && truthy (strip s) = truthy (strip s).
Proof. destruct s as [|c s]; [reflexivity|]. simpl. reflexivity. Qed.

Lemma lstrip_shape s :
  lstrip s = "" ∨ ∃ c r, lstrip s = String c r ∧ isspace c = false.
Proof.
  induction s as [|c s IH]; simpl; [by left|].
  destruct (isspace c) eqn:Hc; [exact IH|]. right. eauto.
Qed.

Lemma rstrip_keeps_head c s :
  isspace c = false → ∃ r, rstrip (String c s) = String c r.
Proof.
  intros Hc. simpl. destruct (rstrip s); rewrite ?Hc; eauto.
Qed.

Lemma rstrip_idem s : rstrip (rstrip s) = rstrip s.
Proof.
  induction s as [|c s IH]; simpl; [done|].
  destruct (rstrip s) as [|a r] eqn:Hr.
  - destruct (isspace c) eqn:Hc; simpl; [done|]. by rewrite Hc.
  - change (rstrip (String c (String a r)))
      with (match rstrip (String a r) with
            | "" => if isspace c then "" else String c ""
            | r' => String c r'
            end).
    by rewrite IH.
Qed.

Lemma strip_idem s : strip (strip s) = strip s.
Proof.
  unfold strip. destruct (lstrip_shape s) as [->|(c & r & -> & Hc)]; [done|].
  destruct (rstrip_keeps_head c r Hc) as [r' Hr'].
  rewrite Hr'. simpl lstrip. rewrite Hc, <- Hr'. apply rstrip_idem.
Qed.

Lemma lstrip_blank s : lstrip s = "" ↔ all_space s = true.
Proof.
  induction s as [|c s IH]; simpl; [done|].
  destruct (isspace c); simpl; [exact IH|]. split; discriminate.
Qed.

(** Stripping leaves nothing exactly when the string is blank. *)
Lemma strip_blank s : strip s = "" ↔ all_space s = true.
Proof.
  unfold strip. split.
  - intros H. apply lstrip_blank.
    destruct (lstrip_shape s) as [E|(c & r & E & Hc)]; [done|].
    rewrite E in H. destruct (rstrip_keeps_head c r Hc) as [r' Hr'].
    rewrite Hr' in H. discriminate.
  - intros H. apply lstrip_blank in H. by rewrite H.
Qed.

Lemma map_chars_length f s : String.length (map_chars f s) = String.length s.
Proof. induction s; simpl; congruence. Qed.

Lemma map_chars_get f s i :
  String.get i (map_chars f s) = f <$> String.get i s.
Proof.
  revert i. induction s as [|c s IH]; intros [|i]; simpl; auto.
Qed.

Lemma length_app (s t : string) :
  String.length (s +:+ t) = (String.length s + String.length t)%nat.
Proof. induction s as [|c s IH]; simpl; [done|]. by rewrite <- IH. Qed.

Lemma app_inj_r (s1 s2 t : string) : s1 +:+ t = s2 +:+ t → s1 = s2.
Proof.
  revert s2. induction s1 as [|c s1 IH]; intros [|d s2] H.
  - done.
  - apply (f_equal String.length) in H.
    rewrite !length_app in H. simpl in H. lia.
  - apply (f_equal String.length) in H.
    rewrite !length_app in H. simpl in H. lia.
  - change (String c (s1 +:+ t) = String d (s2 +:+ t)) in H.
    injection H as -> H. f_equal. by apply IH.
Qed.

End strings.

(** ** The dictionary *)

Section dictionary.
Implicit Types (d : dict) (k v : string).

Lemma dict_get_set_eq k v d : dict_get k (dict_set k v d) = Some v.
Proof.
  induction d as [|[k' v'] d IH]; simpl.
  - by rewrite String.eqb_refl.
  - destruct (String.eqb k k') eqn:E; simpl; rewrite ?String.eqb_refl, ?E; done.
Qed.

Lemma dict_get_set_ne k k' v d :
  k ≠ k' → dict_get k' (dict_set k v d) = dict_get k' d.
Proof.
  intros Hne. induction d as [|[k'' v''] d IH]; simpl.
  - destruct (String.eqb_spec k' k); congruence.
  - destruct (String.eqb_spec k k'') as [->|]; simpl.
    + destruct (String.eqb_spec k' k''); congruence.
    + destruct (String.eqb_spec k' k''); congruence.
Qed.

Lemma dict_set_elem k v d kv :
  kv ∈ dict_set k v d → kv = (k, v) ∨ kv ∈ d.
Proof.
  induction d as [|[k' v'] d IH]; simpl.
  - rewrite list_elem_of_singleton. auto.
  - destruct (String.eqb k k'); rewrite !elem_of_cons; intros [H|H]; auto.
    destruct (IH H); auto.
Qed.

Lemma dict_set_fresh k v d :
  dict_get k d = None → dict_set k v d = d ++ [(k, v)].
Proof.
  induction d as [|[k' v'] d IH]; simpl; [done|].
  destruct (String.eqb k k'); [done|]. intros H. by rewrite IH.
Qed.

Lemma dict_get_app_fresh k d d' :
  dict_get k d = None → dict_get k (d ++ d') = dict_get k d'.
Proof.
  induction d as [|[k' v'] d IH]; simpl; [done|].
  destruct (String.eqb k k'); [done|]. exact IH.
Qed.

Lemma dict_get_None k d : dict_get k d = None ↔ k ∉ keys d.
Proof.
  induction d as [|[k' v'] d IH]; simpl.
  - split; [intros _; apply not_elem_of_nil|done].
  - rewrite not_elem_of_cons, <- IH.
    destruct (String.eqb_spec k k'); split; try done; tauto.
Qed.

Lemma dict_get_elem k v d :
  NoDup (keys d) → (k, v) ∈ d → dict_get k d = Some v.
Proof.
  induction d as [|[k' v'] d IH]; simpl.
  - intros _ H. by apply elem_of_nil in H.
  - rewrite NoDup_cons, elem_of_cons. intros [Hk Hd] [H|H].
    + injection H as -> ->. by rewrite String.eqb_refl.
    + destruct (String.eqb_spec k k') as [->|]; [|by apply IH].
      exfalso. apply Hk. unfold keys.
      change k' with (fst (k', v)). by apply list_elem_of_fmap_2.
Qed.

End dictionary.

(** ** Element trees *)

Section trees.









End trees.

(** ** The loops *)

Section loops.
Implicit Types (st : state) (d : dict).

Lemma steps_trans st1 st2 st3 : steps st1 st2 → steps st2 st3 → steps st1 st3.
Proof.
  intros H12 H23. induction H23; [done|..]; constructor; auto.
Qed.

Lemma steps_trimmed st st' :
  steps st st' →
  Forall (λ kv, trimmed kv.2) (sql_queries st) →
  Forall (λ kv, trimmed kv.2) (sql_queries st').
Proof.
  induction 1 as [|st st' m _ IH|st st' k t Ht _ IH]; intros H0; auto.
  specialize (IH H0). simpl. rewrite Forall_forall in IH |- *.
  intros kv Hkv. apply dict_set_elem in Hkv as [->|Hkv]; [|by apply IH].
  split; [done|apply strip_idem].
Qed.

Lemma steps_keys st st' k :
  steps st st' →
  is_Some (dict_get k (sql_queries st)) →
  is_Some (dict_get k (sql_queries st')).
Proof.
  induction 1 as [|st st' m _ IH|st st' k' t Ht _ IH]; intros H0; auto.
  specialize (IH H0). simpl. destruct (decide (k' = k)) as [->|Hne].
  - rewrite dict_get_set_eq. eauto.
  - by rewrite dict_get_set_ne.
Qed.

Lemma steps_stdout st st' :
  steps st st' → ∃ more, stdout st' = stdout st ++ more.
Proof.
  induction 1 as [|st st' m _ [more IH]|st st' k t Ht _ IH]; simpl.
  - exists []. by rewrite app_nil_r.
  - exists (more ++ [m]). by rewrite IH, app_assoc.
  - exact IH.
Qed.

Lemma steps_printed st st' m : steps st st' → m ∈ stdout st → m ∈ stdout st'.
Proof.
  intros [more ->]%steps_stdout H. apply elem_of_app. by left.
Qed.

Lemma relation_body_steps name rels i r st :
  steps st (relation_body name rels i r st).
Proof.
  unfold relation_body. destruct (text r) as [t|]; [|constructor].
  rewrite guard_strip. destruct (Str.truthy (Str.strip t)) eqn:Ht;
    [|constructor].
  apply truthy_true in Ht. repeat constructor. done.
Qed.

Lemma for_relations_steps name rels i todo st :
  steps st (for_relations name rels i todo st).
Proof.
  revert i st. induction todo as [|r todo IH]; intros i st; simpl.
  - constructor.
  - eapply steps_trans; [apply relation_body_steps|apply IH].
Qed.

Lemma connection_body_steps idx c st : steps st (connection_body idx c st).
Proof. apply for_relations_steps. Qed.

Lemma for_connections_steps idx todo st :
  steps st (for_connections idx todo st).
Proof.
  revert idx st. induction todo as [|c todo IH]; intros idx st; simpl.
  - constructor.
  - eapply steps_trans; [apply connection_body_steps|apply IH].
Qed.

Lemma named_connection_body_steps nc st :
  steps st (named_connection_body nc st).
Proof.
  unfold named_connection_body.
  destruct (find nc "connection") as [c|]; [|constructor].
  destruct (get_opt c "one-time-sql") as [t|]; [|constructor].
  rewrite guard_strip. destruct (Str.truthy (Str.strip t)) eqn:Ht;
    [|constructor].
  apply truthy_true in Ht. repeat constructor. done.
Qed.

Lemma for_named_connections_steps todo st :
  steps st (for_named_connections todo st).
Proof.
  revert st. induction todo as [|c todo IH]; intros st; simpl.
  - constructor.
  - eapply steps_trans; [apply named_connection_body_steps|apply IH].
Qed.

Lemma process_root_steps root st : steps st (process_root root st).
Proof.
  unfold process_root.
  eapply steps_trans; [apply for_connections_steps|].
  apply for_named_connections_steps.
Qed.

Lemma for_tds_files_steps z todo st :
  steps st (for_tds_files z todo st).1.
Proof.
  revert st. induction todo as [|f todo IH]; intros st; simpl.
  - constructor.
  - destruct (parse_entry z f) as [e|root]; simpl.
    + repeat constructor.
    + eapply steps_trans; [|apply IH].
      eapply steps_trans; [|apply process_root_steps].
      repeat constructor.
Qed.

Lemma try_block_steps w p st : steps st (try_block w p st).1.
Proof.
  unfold try_block. destruct (open_zip w) as [e|z].
  { simpl. repeat constructor. }
  cbv zeta. destruct (filter _ (namelist z)) as [|f l].
  { simpl. repeat constructor. }
  pose proof (for_tds_files_steps z (f :: l) st) as H.
  destruct (for_tds_files z (f :: l) st) as [st' [e|]]; simpl in *.
  - by constructor.
  - done.
Qed.

(** Splitting the loops at a position. *)

Lemma for_relations_app name rels i l1 l2 st :
  for_relations name rels i (l1 ++ l2) st =
  for_relations name rels (i + length l1) l2
    (for_relations name rels i l1 st).
Proof.
  revert i st. induction l1 as [|r l1 IH]; intros i st; simpl.
  - by rewrite Nat.add_0_r.
  - rewrite IH. f_equal. lia.
Qed.

Lemma for_connections_app idx l1 l2 st :
  for_connections idx (l1 ++ l2) st =
  for_connections (idx + length l1) l2 (for_connections idx l1 st).
Proof.
  revert idx st. induction l1 as [|r l1 IH]; intros i st; simpl.
  - by rewrite Nat.add_0_r.
  - rewrite IH. f_equal. lia.
Qed.


Lemma for_tds_files_app z l1 l2 st :
  for_tds_files z (l1 ++ l2) st =
  match for_tds_files z l1 st with
  | (st', None) => for_tds_files z l2 st'
  | (st', Some e) => (st', Some e)
  end.
Proof.
  revert st. induction l1 as [|f l1 IH]; intros st; simpl; [done|].
  destruct (parse_entry z f) as [e|root]; [done|]. apply IH.
Qed.

Lemma for_tds_files_parsed z l st :
  Forall (λ f, ∃ root, parse_entry z f = Returns root) l →
  (for_tds_files z l st).2 = None.
Proof.
  intros H. revert st. induction H as [|f l [root Hf] _ IH]; intros st;
    simpl; [done|].
  rewrite Hf. apply IH.
Qed.

End loops.

(** ** Labels of the relations of one connection *)

Section relations.
Implicit Types (st : state) (r : Element) (rels todo : list Element).

Lemma relation_body_write name rels i r t st :
  text r = Some t → Str.strip t ≠ "" →
  relation_body name rels i r st =
  print (MsgFoundSQL (key_of name rels i))
    (assign (key_of name rels i) (Str.strip t) st).
Proof.
  intros Hr Ht. unfold relation_body. rewrite Hr, guard_strip.
  apply truthy_true in Ht. by rewrite Ht.
Qed.

Lemma relation_body_skip name rels i r st :
  has_sql r = false → relation_body name rels i r st = st.
Proof.
  unfold has_sql, relation_body. destruct (text r) as [t|]; [|done].
  rewrite guard_strip. by intros ->.
Qed.

Lemma query_key_inj name (i j : nat) :
  name +:+ "_query_" +:+ pretty i = name +:+ "_query_" +:+ pretty j → i = j.
Proof.
  intros H. apply (inj (String.app name)) in H.
  apply (inj (String.app "_query_")) in H. by apply (inj pretty) in H.
Qed.

Lemma key_of_inj name rels i j :
  1 < length rels → key_of name rels i = key_of name rels j → i = j.
Proof.
  unfold key_of. intros Hlen. apply Nat.ltb_lt in Hlen. rewrite Hlen.
  apply query_key_inj.
Qed.

(** A key the rest of the loop does not assign keeps its value. *)
Lemma for_relations_other name rels i todo st k :
  (∀ j, i ≤ j → key_of name rels j ≠ k) →
  dict_get k (sql_queries (for_relations name rels i todo st)) =
  dict_get k (sql_queries st).
Proof.
  revert i st. induction todo as [|r todo IH]; intros i st Hk; [done|].
  simpl. rewrite IH by (intros j Hj; apply Hk; lia).
  unfold relation_body. destruct (text r) as [t|]; [|done].
  destruct (_ && _); [|done]. simpl. apply dict_get_set_ne. by apply Hk.
Qed.

(** The relation at position [p] of the rest is found under the key of its
    index, provided the keys of the loop are pairwise different. *)
Lemma for_relations_lookup name rels i todo st p r t :
  1 < length rels ∨ length todo ≤ 1 →
  todo !! p = Some r → text r = Some t → Str.strip t ≠ "" →
  dict_get (key_of name rels (i + p))
    (sql_queries (for_relations name rels i todo st)) = Some (Str.strip t)
  ∧ MsgFoundSQL (key_of name rels (i + p))
      ∈ stdout (for_relations name rels i todo st).
Proof.
  revert i st p. induction todo as [|r0 todo IH]; intros i st p Hk Hp Hr Ht.
  { done. }
  destruct p as [|p]; simpl in Hp.
  - injection Hp as ->. rewrite Nat.add_0_r. simpl.
    rewrite (relation_body_write _ _ _ _ t) by done. split.
    + destruct Hk as [Hk|Hk].
      * rewrite for_relations_other; [apply dict_get_set_eq|].
        intros j Hj E. apply key_of_inj in E; [lia|done].
      * destruct todo; [|simpl in Hk; lia]. apply dict_get_set_eq.
    + eapply steps_printed; [apply for_relations_steps|].
      simpl. apply elem_of_app. right. by apply list_elem_of_singleton.
  - simpl. replace (i + S p) with (S i + p) by lia. apply IH; try done.
    destruct Hk as [Hk|Hk]; [by left|right]. simpl in Hk. lia.
Qed.

(** From an empty mapping, or one that holds none of the keys to come, the
    loop over more than one relation appends the positional entries. *)
Lemma for_relations_entries name rels i todo st :
  1 < length rels →
  (∀ j, i ≤ j → dict_get (key_of name rels j) (sql_queries st) = None) →
  sql_queries (for_relations name rels i todo st) =
  sql_queries st ++ positional_entries name i todo.
Proof.
  intros Hlen. revert i st.
  induction todo as [|r todo IH]; intros i st Hfresh; simpl.
  { by rewrite app_nil_r. }
  assert (key_of name rels i = name +:+ "_query_" +:+ pretty i) as Hkey.
  { unfold key_of. apply Nat.ltb_lt in Hlen. by rewrite Hlen. }
  unfold relation_body. destruct (text r) as [t|].
  2:{ apply IH. intros j Hj. apply Hfresh. lia. }
  rewrite guard_strip. destruct (Str.truthy (Str.strip t)).
  2:{ apply IH. intros j Hj. apply Hfresh. lia. }
  rewrite IH.
  - simpl. rewrite dict_set_fresh by (apply Hfresh; lia).
    rewrite Hkey, <- app_assoc. done.
  - intros j Hj. simpl. rewrite dict_set_fresh by (apply Hfresh; lia).
    rewrite dict_get_app_fresh by (apply Hfresh; lia). simpl.
    destruct (String.eqb_spec (key_of name rels j) (key_of name rels i))
      as [E|]; [|done].
    apply key_of_inj in E; [lia|done].
Qed.

(** Whatever SQL a text relation of the connection carries is stored by the
    body of the connection loop, under the key of its position. *)
Lemma connection_body_extracts idx c st r t :
  r ∈ text_relations c → text r = Some t → Str.strip t ≠ "" →
  ∃ p, text_relations c !! p = Some r ∧
    dict_get (key_of (conn_name idx c) (text_relations c) (S p))
      (sql_queries (connection_body idx c st)) = Some (Str.strip t)
    ∧ MsgFoundSQL (key_of (conn_name idx c) (text_relations c) (S p))
        ∈ stdout (connection_body idx c st).
Proof.
  intros Hin Hr Ht. apply list_elem_of_lookup in Hin as [p Hp].
  exists p. split; [done|]. unfold connection_body.
  apply (for_relations_lookup _ _ 1 _ st p r t); try done.
  destruct (decide (1 < length (text_relations c))); [by left|right; lia].
Qed.

End relations.

(** ** Connections of one document *)

Section connections.
Implicit Types (st : state) (c : Element).

(** The connection after [pre] is handled with index [length pre + 1]. *)
Lemma process_root_at root pre c post st :
  findall root "connection" = pre ++ c :: post →
  process_root root st =
  for_named_connections (findall root "named-connection")
    (for_connections (S (S (length pre))) post
       (connection_body (S (length pre)) c (for_connections 1 pre st))).
Proof.
  intros H. unfold process_root. rewrite H, for_connections_app. done.
Qed.

Lemma process_root_after root pre c post st :
  findall root "connection" = pre ++ c :: post →
  steps (connection_body (S (length pre)) c (for_connections 1 pre st))
    (process_root root st).
Proof.
  intros H. rewrite (process_root_at _ _ _ _ _ H).
  eapply steps_trans; [apply for_connections_steps|].
  apply for_named_connections_steps.
Qed.

End connections.

(** * The claims *)

Import Fixture.

(** ** C1: a single text relation is labelled with the display name *)

(** C1, as stated, fails.  The connection [pg] below holds exactly one text
    relation with SQL and one that is blank; the entry is stored under
    [pg_query_2], and nothing is stored under the display name [pg]. *)
Lemma C1_counterexample :
  let c := conn "pg" [rel "  "; rel "SELECT 1"] in
  let d := value (extract_sql_from_tdsx (one [c]) "x.tdsx" None) in
  length (filter (λ r, has_sql r = true) (text_relations c)) = 1
  ∧ conn_name 1 c = "pg"
  ∧ d = Returns [("pg_query_2", "SELECT 1")]
  ∧ d ≠ Returns [("pg", "SELECT 1")].
Proof. vm_compute. repeat split. discriminate. Qed.

(** C1 (amended).  When the subtree of a connection holds exactly one
    relation with type="text", blank ones counted, and its text is not empty
    after trimming, the body of the connection loop assigns the trimmed text to
    the display name itself and prints that key; the key is then present in
    the mapping the document leaves, and the message is on its output. *)
Theorem C1_single_text_relation root pre c post r t st :
  findall root "connection" = pre ++ c :: post →
  text_relations c = [r] → text r = Some t → Str.strip t ≠ "" →
  let name := conn_name (S (length pre)) c in
  let before := for_connections 1 pre st in
  connection_body (S (length pre)) c before =
    print (MsgFoundSQL name) (assign name (Str.strip t) before)
  ∧ dict_get name
      (sql_queries (connection_body (S (length pre)) c before))
    = Some (Str.strip t)
  ∧ MsgFoundSQL name ∈ stdout (process_root root st)
  ∧ is_Some (dict_get name (sql_queries (process_root root st))).
Proof.
  intros Hroot Hrels Hr Ht name before.
  assert (connection_body (S (length pre)) c before =
          print (MsgFoundSQL name) (assign name (Str.strip t) before)) as Hbody.
  { unfold connection_body. rewrite Hrels. simpl.
    by rewrite (relation_body_write _ _ _ _ t). }
  pose proof (process_root_after root pre c post st Hroot) as Hafter.
  fold before in Hafter. rewrite Hbody in *.
  split; [done|]. split; [apply dict_get_set_eq|]. split.
  - eapply steps_printed; [exact Hafter|]. simpl.
    apply elem_of_app. right. by apply list_elem_of_singleton.
  - eapply steps_keys; [exact Hafter|]. simpl.
    rewrite dict_get_set_eq. eauto.
Qed.

Lemma C1_witness :
  let c := conn "pg" [rel " SELECT 1 "] in
  dict_get "pg" (sql_queries (connection_body 1 c init)) = Some "SELECT 1".
Proof.
  intros c.
  apply (C1_single_text_relation (datasource [c]) [] c [] (rel " SELECT 1 ")
           " SELECT 1 " init);
    [reflexivity | reflexivity | reflexivity | by vm_compute].
Defined.

(** ** C2: several text relations are numbered *)

(** C2, as stated, fails.  With a blank text relation before two that carry
    SQL, the two are stored under [pg_query_2] and [pg_query_3]: the number is
    the position among all text relations, not the rank among those that
    carry SQL. *)
Lemma C2_counterexample :
  let c := conn "pg" [rel ""; rel "SELECT 1"; rel "SELECT 2"] in
  let d := value (extract_sql_from_tdsx (one [c]) "x.tdsx" None) in
  1 < length (filter (λ r, has_sql r = true) (text_relations c))
  ∧ ranked_entries "pg" (text_relations c)
    = [("pg_query_1", "SELECT 1"); ("pg_query_2", "SELECT 2")]
  ∧ d = Returns [("pg_query_2", "SELECT 1"); ("pg_query_3", "SELECT 2")]
  ∧ d ≠ Returns (ranked_entries "pg" (text_relations c)).
Proof. vm_compute. repeat split; [lia|discriminate]. Qed.

(** C2 (amended).  For a connection with more than one relation of
    type="text", blank ones counted, every such relation whose trimmed text is
    not empty is stored under [<display-name>_query_<i>] with its trimmed
    text, where [i] is its 1-based position among all text relations of the
    connection; started on an empty mapping the entries come out in document
    order, and two text relations "SELECT 1" and "SELECT 2" give exactly
    [<name>_query_1] and [<name>_query_2]. *)
Theorem C2_positional_labels idx c out :
  1 < length (text_relations c) →
  let name := conn_name idx c in
  let st' := connection_body idx c {| sql_queries := []; stdout := out |} in
  sql_queries st' = positional_entries name 1 (text_relations c)
  ∧ (∀ p r t,
       text_relations c !! p = Some r → text r = Some t → Str.strip t ≠ "" →
       dict_get (name +:+ "_query_" +:+ pretty (S p)) (sql_queries st')
       = Some (Str.strip t))
  ∧ (∀ r1 r2,
       text_relations c = [r1; r2] →
       text r1 = Some "SELECT 1" → text r2 = Some "SELECT 2" →
       sql_queries st'
       = [(name +:+ "_query_1", "SELECT 1"); (name +:+ "_query_2", "SELECT 2")]).
Proof.
  intros Hlen name st'.
  assert (sql_queries st' = positional_entries name 1 (text_relations c)) as E.
  { unfold st', connection_body.
    by rewrite for_relations_entries. }
  split; [exact E|]. split.
  - intros p r t Hp Hr Ht.
    destruct (for_relations_lookup name (text_relations c) 1
                (text_relations c) {| sql_queries := []; stdout := out |}
                p r t) as [H _]; try done; [by left|].
    unfold key_of in H. apply Nat.ltb_lt in Hlen. rewrite Hlen in H.
    exact H.
  - intros r1 r2 Hrels H1 H2. rewrite E, Hrels. simpl.
    rewrite H1, H2. reflexivity.
Qed.

Lemma C2_witness :
  let c := conn "pg" [rel "SELECT 1"; rel " "; rel "SELECT 3 "] in
  sql_queries (connection_body 1 c init)
  = [("pg_query_1", "SELECT 1"); ("pg_query_3", "SELECT 3")].
Proof.
  intros c.
  apply (C2_positional_labels 1 c []). vm_compute. lia.
Defined.

(** ** C4: the display name of a connection *)

(** C4, as stated, fails.  A [class] attribute that is present and empty is
    the display name: the fallback [connection_1] is not used. *)
Lemma C4_counterexample :
  let c := conn "" [rel "SELECT 1"] in
  get_opt c "class" = Some ""
  ∧ conn_name 1 c = ""
  ∧ conn_name 1 c ≠ "connection_1"
  ∧ value (extract_sql_from_tdsx (one [c]) "x.tdsx" None)
    = Returns [("", "SELECT 1")].
Proof. vm_compute. repeat split. discriminate. Qed.

(** C4 (amended).  The display name of a connection is the value of its
    [class] attribute whenever the attribute is present, empty or not, and
    [connection_<n>] exactly when it is absent, [n] being the 1-based rank of
    the connection among the connections found in the document; the document
    is processed with that name for the relations of the connection. *)
Theorem C4_display_name root pre c post st :
  findall root "connection" = pre ++ c :: post →
  let n := S (length pre) in
  let name :=
    match get_opt c "class" with
    | Some v => v
    | None => "connection_" +:+ pretty n
    end in
  conn_name n c = name
  ∧ process_root root st =
    for_named_connections (findall root "named-connection")
      (for_connections (S n) post
         (for_relations name (text_relations c) 1 (text_relations c)
            (for_connections 1 pre st))).
Proof.
  intros Hroot n name.
  assert (conn_name n c = name) as E.
  { reflexivity. }
  split; [exact E|].
  rewrite (process_root_at _ _ _ _ _ Hroot). unfold connection_body.
  fold n. by rewrite E.
Qed.

Lemma C4_witness :
  let c2 := anon_conn [rel "SELECT 2"] in
  conn_name 2 c2 = "connection_2".
Proof.
  intros c2.
  apply (C4_display_name (datasource [conn "pg" []; c2]) [conn "pg" []] c2 []
           init).
  reflexivity.
Defined.

(** ** C5: the initial SQL of a named connection *)



(** The example of the specification, through the whole routine. *)
Example initial_sql_example :
  value (extract_sql_from_tdsx (one [named "src" "SELECT 3  "]) "x.tdsx" None)
  = Returns [("src_initial_sql", "SELECT 3")].
Proof. reflexivity. Qed.

(** ** C9: the values of the mapping *)

Lemma returned_values_trimmed w tdsx_path output_dir d :
  value (extract_sql_from_tdsx w tdsx_path output_dir) = Returns d →
  Forall (λ kv, trimmed kv.2) d.
Proof.
  intros Hd.
  assert (Forall (λ kv, trimmed kv.2)
            (sql_queries (try_block w tdsx_path init).1)) as Hst.
  { eapply steps_trimmed; [apply try_block_steps|]. constructor. }
  unfold extract_sql_from_tdsx in Hd.
  destruct (path_exists w); simpl in Hd.
  2:{ injection Hd as <-. constructor. }
  destruct (try_block w tdsx_path init) as [st returned]. simpl in Hst.
  destruct returned; [by injection Hd as <-|].
  destruct output_dir as [dir|]; [|by injection Hd as <-].
  destruct (_ && _); [|by injection Hd as <-].
  destruct (makedirs_ok w); [|done].
  destruct (for_items _ _ _ _ _) as [[[e|] fs] out]; [done|].
  by injection Hd as <-.
Qed.

(** C9.  A relation without text, or whose text is empty or white space only,
    leaves the state as it is; and every value of the mapping that the routine
    returns is not empty and equal to its own stripped form. *)
Theorem C9_values_trimmed w tdsx_path output_dir d :
  value (extract_sql_from_tdsx w tdsx_path output_dir) = Returns d →
  Forall (λ kv, trimmed kv.2) d
  ∧ (∀ name rels i r st,
       text r = None ∨ (∃ t, text r = Some t ∧ Str.all_space t = true) →
       relation_body name rels i r st = st).
Proof.
  intros Hd. split.
  - by apply (returned_values_trimmed w tdsx_path output_dir).
  - intros name rels i r st H. apply relation_body_skip. unfold has_sql.
    destruct H as [->|(t & -> & Ht)]; [done|].
    apply truthy_false. by apply strip_blank.
Qed.

Lemma C9_witness :
  Forall (λ kv, trimmed kv.2) [("pg_query_2", "SELECT 1")].
Proof.
  apply (C9_values_trimmed (one [conn "pg" [rel "  "; rel " SELECT 1 "]])
           "x.tdsx" None).
  reflexivity.
Defined.

(** ** C10: a connection nested in a connection *)

Section nesting.
Implicit Types (st : state).



End nesting.



(** Both entries, through the whole routine. *)
Example nested_example :
  value (extract_sql_from_tdsx
           (one [conn "outer" [conn "inner" [rel "SELECT 1"]]]) "x.tdsx" None)
  = Returns [("outer", "SELECT 1"); ("inner", "SELECT 1")].
Proof. reflexivity. Qed.

(** ** The archive: C3, C7 and C8 *)

Section archive.
Implicit Types (w : World) (z : ZipFile) (st : state).


Lemma try_block_descriptors w p st z f l :
  open_zip w = Returns z →
  filter (λ f, is_tds f = true) (namelist z) = f :: l →
  try_block w p st =
  match for_tds_files z (f :: l) st with
  | (st', None) => (st', false)
  | (st', Some e) => (print (handler p e) st', false)
  end.
Proof. intros Hz Hl. unfold try_block. rewrite Hz. cbv zeta. by rewrite Hl. Qed.

(** The loop over the descriptors stops at the first one that fails. *)
Lemma for_tds_files_stop z pre bad post e st :
  Forall (λ f, ∃ root, parse_entry z f = Returns root) pre →
  parse_entry z bad = Raises e →
  for_tds_files z (pre ++ bad :: post) st =
  (print (MsgProcessing bad) (for_tds_files z pre st).1, Some e).
Proof.
  intros Hpre Hbad. rewrite for_tds_files_app.
  pose proof (for_tds_files_parsed z pre st Hpre) as Hnone.
  destruct (for_tds_files z pre st) as [st' o]. simpl in *. subst o.
  by rewrite Hbad.
Qed.

Lemma try_block_stop w p z pre bad post e :
  open_zip w = Returns z →
  filter (λ f, is_tds f = true) (namelist z) = pre ++ bad :: post →
  Forall (λ f, ∃ root, parse_entry z f = Returns root) pre →
  parse_entry z bad = Raises e →
  try_block w p init =
  (print (handler p e)
     (print (MsgProcessing bad) (for_tds_files z pre init).1), false).
Proof.
  intros Hz Hl Hpre Hbad.
  destruct (pre ++ bad :: post) as [|f l] eqn:E.
  { by destruct pre. }
  rewrite (try_block_descriptors w p init z f l Hz Hl), <- E.
  by rewrite (for_tds_files_stop z pre bad post e).
Qed.



Lemma for_items_output w dir todo fs out m :
  m ∈ out → m ∈ (for_items w dir todo fs out).2.
Proof.
  revert fs out. induction todo as [|[name sql] todo IH]; intros fs out Hm;
    simpl; [done|].
  destruct (writable w _); [|done].
  apply IH. apply elem_of_app. by left.
Qed.

End archive.



(** The same archive through the whole routine: the first descriptor is kept,
    the third is never looked at. *)
Example parse_error_example :
  let r := extract_sql_from_tdsx (world broken_second) "x.tdsx" None in
  value r = Returns [("pg", "SELECT 1")]
  ∧ output r = [MsgProcessing "0.tds"; MsgFoundSQL "pg";
                MsgProcessing "1.tds"; MsgParseError].
Proof. split; reflexivity. Qed.

(** Opening fails: nothing was stored yet, so the handler is reached with an
    empty mapping and the sink is skipped. *)
Lemma open_raises_bad_zip w tdsx_path output_dir :
  path_exists w = true → open_zip w = Raises BadZipFile →
  extract_sql_from_tdsx w tdsx_path output_dir
  = {| value := Returns []; output := [MsgNotAZipFile tdsx_path];
       disk := files w |}.
Proof.
  intros Hex Hz. unfold extract_sql_from_tdsx, try_block.
  rewrite Hex, Hz. simpl. destruct output_dir as [dir|]; [|done].
  by rewrite andb_false_r.
Qed.

(** C7, as stated, fails.  In the archive below the first descriptor is
    sound and reading the second raises [BadZipFile] (a corrupt member: the
    archive itself opens).  The call prints that the file is not a valid zip
    file, and yet it returns the entry of the first descriptor and writes its
    file: a partial result, not the empty mapping. *)
Lemma C7_counterexample :
  let r := extract_sql_from_tdsx (world Scenario.corrupt_member) "x.tdsx"
             (Some "out") in
  parse_entry (archive Scenario.corrupt_member) "1.tds" = Raises BadZipFile
  ∧ MsgNotAZipFile "x.tdsx" ∈ output r
  ∧ value r = Returns [("pg", "SELECT 1")]
  ∧ value r ≠ Returns []
  ∧ disk r !! "out/pg.sql" = Some "SELECT 1".
Proof.
  vm_compute. split; [reflexivity|]. split; [|split; [reflexivity|split]].
  - do 3 apply list_elem_of_further. apply list_elem_of_here.
  - discriminate.
  - reflexivity.
Qed.

(** C7 (amended).  For a file that exists: when opening it as a zip archive
    raises [BadZipFile], the call prints that the file is not a valid zip
    file and returns the empty mapping, no exception escapes and no file is
    written.  When the archive opens and [BadZipFile] is raised while the
    descriptor [bad] is read, the descriptors [pre] before it having been
    parsed, the same message is printed and the [try] statement ends there;
    the mapping that is returned is the partial one left by [pre], and
    without an output directory the call returns it. *)
Theorem C7_bad_zip_file w tdsx_path output_dir :
  path_exists w = true →
  (open_zip w = Raises BadZipFile →
   extract_sql_from_tdsx w tdsx_path output_dir
   = {| value := Returns []; output := [MsgNotAZipFile tdsx_path];
        disk := files w |})
  ∧ (∀ zip_ref pre bad post,
       open_zip w = Returns zip_ref →
       filter (λ f, is_tds f = true) (namelist zip_ref) = pre ++ bad :: post →
       Forall (λ f, ∃ root, parse_entry zip_ref f = Returns root) pre →
       parse_entry zip_ref bad = Raises BadZipFile →
       let st := (for_tds_files zip_ref pre init).1 in
       let r := extract_sql_from_tdsx w tdsx_path output_dir in
       try_block w tdsx_path init
       = (print (MsgNotAZipFile tdsx_path) (print (MsgProcessing bad) st),
          false)
       ∧ MsgNotAZipFile tdsx_path ∈ output r
       ∧ (∀ d, value r = Returns d → d = sql_queries st)
       ∧ value (extract_sql_from_tdsx w tdsx_path None)
         = Returns (sql_queries st)).
Proof.
  intros Hex. split; [by apply open_raises_bad_zip|].
  intros zip_ref pre bad post Hz Hl Hpre Hbad st r.
  pose proof (try_block_stop w tdsx_path zip_ref pre bad post BadZipFile
                Hz Hl Hpre Hbad) as Htry.
  simpl in Htry. fold st in Htry.
  split; [exact Htry|].
  unfold r, extract_sql_from_tdsx. rewrite Hex, Htry. simpl.
  split; [|split; [|done]].
  - assert (MsgNotAZipFile tdsx_path
              ∈ (stdout st ++ [MsgProcessing bad])
                ++ [MsgNotAZipFile tdsx_path]) as Hm.
    { apply elem_of_app. right. by apply list_elem_of_singleton. }
    destruct output_dir as [dir|]; [|exact Hm].
    destruct (_ && _); [|exact Hm].
    destruct (makedirs_ok w); [|exact Hm].
    pose proof (for_items_output w dir (sql_queries st) (files w) _ _ Hm) as H.
    destruct (for_items _ _ _ _ _) as [[[e|] fs] out]; exact H.
  - intros d. destruct output_dir as [dir|]; [|by intros [= <-]].
    destruct (_ && _); [|by intros [= <-]].
    destruct (makedirs_ok w); [|done].
    destruct (for_items _ _ _ _ _) as [[[e|] fs] out]; [done|].
    by intros [= <-].
Qed.

Lemma C7_witness :
  value (extract_sql_from_tdsx not_a_zip "broken.tdsx" (Some "out"))
  = Returns []
  ∧ value (extract_sql_from_tdsx (world Scenario.corrupt_member) "x.tdsx" None)
    = Returns [("pg", "SELECT 1")].
Proof.
  split.
  - by rewrite (proj1 (C7_bad_zip_file not_a_zip "broken.tdsx" (Some "out")
                         eq_refl) eq_refl).
  - destruct (proj2 (C7_bad_zip_file (world Scenario.corrupt_member) "x.tdsx"
                       None eq_refl)
                (archive Scenario.corrupt_member) ["0.tds"] "1.tds" []
                eq_refl eq_refl) as (_ & _ & _ & H).
    + repeat constructor. eexists. reflexivity.
    + reflexivity.
    + exact H.
Defined.

(** For comparison: [BadZipFile] raised while a later descriptor is read, the
    archive having been opened, is reported in the same way, and the entries
    of the descriptors before it are returned. *)
Example bad_member_example :
  let r := extract_sql_from_tdsx
             (world [Returns (datasource [conn "pg" [rel "SELECT 1"]]);
                     Raises BadZipFile])
             "x.tdsx" None in
  value r = Returns [("pg", "SELECT 1")]
  ∧ output r = [MsgProcessing "0.tds"; MsgFoundSQL "pg";
                MsgProcessing "1.tds"; MsgNotAZipFile "x.tdsx"].
Proof. split; reflexivity. Qed.

(** C8.  When the archive opens and no entry name ends in [.tds], the call
    prints that no descriptor was found and returns the empty mapping; no
    exception escapes and no file is written. *)
Theorem C8_no_descriptor w zip_ref tdsx_path output_dir :
  path_exists w = true → open_zip w = Returns zip_ref →
  (∀ f, f ∈ namelist zip_ref → Str.endswith f ".tds" = false) →
  extract_sql_from_tdsx w tdsx_path output_dir
  = {| value := Returns []; output := [MsgNoTdsFile]; disk := files w |}.
Proof.
  intros Hex Hz Hnone. unfold extract_sql_from_tdsx, try_block.
  rewrite Hex, Hz. cbv zeta.
  assert (filter (λ f, is_tds f = true) (namelist zip_ref) = []) as ->.
  { apply elem_of_nil_inv. intros f Hf.
    apply list_elem_of_filter in Hf as [Hf Hin].
    unfold is_tds in Hf. rewrite (Hnone f Hin) in Hf. discriminate. }
  reflexivity.
Qed.

Lemma C8_witness :
  extract_sql_from_tdsx (world []) "x.tdsx" (Some "out")
  = {| value := Returns []; output := [MsgNoTdsFile]; disk := ∅ |}.
Proof.
  apply (C8_no_descriptor (world []) (archive []) "x.tdsx" (Some "out")
           eq_refl eq_refl).
  intros f Hf. apply list_elem_of_singleton in Hf as ->. reflexivity.
Defined.

(** ** C6: the files written for the mapping *)

Section sink.
Implicit Types (w : World) (fs : gmap string string) (d todo : dict).

Lemma safe_char_not_slash c : safe_char c ≠ "/"%char.
Proof.
  destruct c as [[] [] [] [] [] [] [] []]; vm_compute; discriminate.
Qed.

(** An ASCII character outside [[A-Za-z0-9_-]] becomes an underscore, and
    a character of that class stays. *)
Lemma safe_char_ascii c :
  (Str.ord c < 128)%N →
  safe_char c =
  if Str.ascii_alnum c || Ascii.eqb c "-" || Ascii.eqb c "_"
  then c else "_"%char.
Proof.
  destruct c as [[] [] [] [] [] [] [] []]; vm_compute;
    (reflexivity || discriminate).
Qed.

Lemma startswith_slash c s :
  Str.startswith (String c s) "/" = Ascii.eqb c "/".
Proof.
  unfold Str.startswith.
  change (String.substring 0 (String.length "/") (String c s))
    with (String c (String.substring 0 0 s)).
  assert (String.substring 0 0 s = "") as -> by (by destruct s).
  change (String.eqb (String c "") "/")
    with (if Ascii.eqb c "/" then String.eqb "" "" else false).
  by destruct (Ascii.eqb c "/").
Qed.

Lemma file_name_not_absolute k :
  Str.startswith (safe_name k +:+ ".sql") "/" = false.
Proof.
  destruct k as [|c k]; [reflexivity|].
  change (safe_name (String c k) +:+ ".sql")
    with (String (safe_char c) (safe_name k +:+ ".sql")).
  rewrite startswith_slash. apply Ascii.eqb_neq, safe_char_not_slash.
Qed.

Lemma path_join_inj dir k1 k2 :
  path_join dir (safe_name k1 +:+ ".sql")
  = path_join dir (safe_name k2 +:+ ".sql") →
  safe_name k1 = safe_name k2.
Proof.
  unfold path_join. rewrite !file_name_not_absolute.
  destruct (_ || _); intros H.
  - apply (inj (String.app dir)) in H. by apply app_inj_r in H.
  - apply (inj (String.app dir)) in H.
    apply (inj (String.app "/")) in H. by apply app_inj_r in H.
Qed.

(** A path that no entry to come is written to keeps its content. *)
Lemma for_items_other w dir todo fs out path :
  (∀ k, k ∈ keys todo →
        path_join dir (safe_name k +:+ ".sql") ≠ path) →
  (for_items w dir todo fs out).1.2 !! path = fs !! path.
Proof.
  revert fs out. induction todo as [|[k v] todo IH]; intros fs out Hk;
    simpl; [done|].
  destruct (writable w _); [|done].
  rewrite IH.
  - apply lookup_insert_ne. apply Hk. simpl. apply list_elem_of_here.
  - intros k' Hk'. apply Hk. simpl. by apply list_elem_of_further.
Qed.

(** When every write succeeds and the safe names are pairwise different,
    each entry is read back from its file. *)
Lemma for_items_lookup w dir todo fs out k v :
  (for_items w dir todo fs out).1.1 = None →
  NoDup (map safe_name (keys todo)) →
  (k, v) ∈ todo →
  (for_items w dir todo fs out).1.2
    !! path_join dir (safe_name k +:+ ".sql") = Some v.
Proof.
  revert fs out. induction todo as [|[k0 v0] todo IH]; intros fs out;
    simpl.
  { intros _ _ H. by apply elem_of_nil in H. }
  destruct (writable w _); [|done].
  rewrite NoDup_cons, elem_of_cons. intros Hok [Hfresh Hnd] [[= -> ->]|Hin].
  - rewrite for_items_other; [apply lookup_insert_eq|].
    intros k' Hk' E. apply path_join_inj in E. apply Hfresh.
    rewrite <- E. by apply (list_elem_of_fmap_2 safe_name).
  - by apply IH.
Qed.

Lemma try_block_returned w p st :
  (try_block w p st).2 = true →
  sql_queries (try_block w p st).1 = sql_queries st.
Proof.
  unfold try_block. destruct (open_zip w) as [e|z]; [done|].
  cbv zeta. destruct (filter _ (namelist z)) as [|f l]; [done|].
  by destruct (for_tds_files z (f :: l) st) as [st' [e|]].
Qed.

End sink.

(** C6, as stated, fails twice.  The labels [a b] and [a_b] have the same
    safe name, so the second file overwrites the first and reading
    [a_b.sql] back gives the SQL of the second entry for both; and the
    character U+00E9, outside [[A-Za-z0-9_-]], is alphanumeric for
    [str.isalnum] and is kept in the file name. *)
Lemma C6_counterexample :
  let w := one [conn "a b" [rel "SELECT 1"]; conn "a_b" [rel "SELECT 2"]] in
  let r := extract_sql_from_tdsx w "x.tdsx" (Some "out") in
  let e := ascii_of_nat 233 in
  value r = Returns [("a b", "SELECT 1"); ("a_b", "SELECT 2")]
  ∧ path_join "out" (safe_name "a b" +:+ ".sql") = "out/a_b.sql"
  ∧ disk r !! "out/a_b.sql" = Some "SELECT 2"
  ∧ disk r !! path_join "out" (safe_name "a b" +:+ ".sql") ≠ Some "SELECT 1"
  ∧ Str.ascii_alnum e || Ascii.eqb e "-" || Ascii.eqb e "_" = false
  ∧ safe_name (String e "") = String e ""
  ∧ safe_char e ≠ "_"%char.
Proof. vm_compute. repeat split; discriminate. Qed.

(** C6 (amended).  When the call returns the mapping [d] for a non-empty
    output directory and no two labels of [d] have the same safe name, the
    file named by the safe name of a label, with the suffix [.sql], in that
    directory holds exactly the value of the entry, which is its own stripped
    form.  The safe name has the length of the label and, character by
    character, keeps what [str.isalnum] accepts, the hyphen and the
    underscore, and puts an underscore for everything else; for ASCII
    characters that is every character outside [[A-Za-z0-9_-]]. *)
Theorem C6_files_round_trip w tdsx_path dir d k v :
  let r := extract_sql_from_tdsx w tdsx_path (Some dir) in
  value r = Returns d → dir ≠ "" →
  NoDup (map safe_name (keys d)) →
  (k, v) ∈ d →
  disk r !! path_join dir (safe_name k +:+ ".sql") = Some v
  ∧ Str.strip v = v
  ∧ String.length (safe_name k) = String.length k
  ∧ (∀ i, String.get i (safe_name k) = safe_char <$> String.get i k)
  ∧ (∀ c, safe_char c =
          if Str.isalnum c || Ascii.eqb c "-" || Ascii.eqb c "_"
          then c else "_"%char)
  ∧ (∀ c, (Str.ord c < 128)%N →
          Str.ascii_alnum c || Ascii.eqb c "-" || Ascii.eqb c "_" = false →
          safe_char c = "_"%char).
Proof.
  intros r Hd Hdir Hnd Hin.
  split; [|split; [|split; [|split; [|split]]]].
  - unfold r, extract_sql_from_tdsx in *.
    destruct (path_exists w); simpl in *.
    2:{ injection Hd as <-. by apply elem_of_nil in Hin. }
    pose proof (try_block_returned w tdsx_path init) as Hret.
    destruct (try_block w tdsx_path init) as [st returned]. simpl in *.
    destruct returned.
    { injection Hd as <-. rewrite Hret in Hin by done.
      by apply elem_of_nil in Hin. }
    apply truthy_true in Hdir. rewrite Hdir in *. simpl in *.
    destruct (dict_truthy (sql_queries st)) eqn:Hne.
    2:{ injection Hd as <-. destruct (sql_queries st); [|done].
        by apply elem_of_nil in Hin. }
    destruct (makedirs_ok w); [|done].
    pose proof (for_items_lookup w dir (sql_queries st) (files w) (stdout st)
                  k v) as Hlook.
    destruct (for_items _ _ _ _ _) as [[[e|] fs] out]; [done|].
    simpl in *. injection Hd as <-. by apply Hlook.
  - pose proof (returned_values_trimmed w tdsx_path (Some dir) d Hd) as Hall.
    rewrite Forall_forall in Hall. by destruct (Hall _ Hin).
  - apply map_chars_length.
  - intros i. apply map_chars_get.
  - reflexivity.
  - intros c Hc Hout. by rewrite safe_char_ascii, Hout.
Qed.

Lemma C6_witness :
  disk (extract_sql_from_tdsx two_entries "x.tdsx" (Some "out"))
    !! "out/a_b.sql" = Some "SELECT 1".
Proof.
  refine (proj1 (C6_files_round_trip two_entries "x.tdsx" "out"
                   [("a.b", "SELECT 1"); ("src_initial_sql", "SELECT 3")]
                   "a.b" "SELECT 1" _ _ _ _)).
  - reflexivity.
  - discriminate.
  - apply (bool_decide_unpack _). by vm_compute.
  - apply list_elem_of_here.
Defined.


(** * Further properties of [extract_sql_from_tdsx] *)

(** ** The events of a run *)

Section events.
Implicit Types (st : state) (d : dict) (k v : string).

Lemma run_trans st1 st2 st3 : run st1 st2 → run st2 st3 → run st1 st3.
Proof.
  intros H12 H23. induction H23 as [|st2 st3 st4 _ IH Hev]; [done|].
  eapply run_event; [by apply IH|done].
Qed.

Lemma run_one st st' : event st st' → run st st'.
Proof. intros H. eapply run_event; [apply run_refl|done]. Qed.

Lemma run_notice st m : notice m = true → run st (print m st).
Proof. intros H. by apply run_one, event_notice. Qed.

Lemma relation_body_run name rels i r st :
  run st (relation_body name rels i r st).
Proof.
  unfold relation_body. destruct (text r) as [t|]; [|apply run_refl].
  rewrite guard_strip. destruct (Str.truthy (Str.strip t)) eqn:Ht;
    [|apply run_refl].
  apply truthy_true in Ht. by apply run_one, event_found.
Qed.

Lemma for_relations_run name rels i todo st :
  run st (for_relations name rels i todo st).
Proof.
  revert i st. induction todo as [|r todo IH]; intros i st; simpl.
  - apply run_refl.
  - eapply run_trans; [apply relation_body_run|apply IH].
Qed.

Lemma for_connections_run idx todo st :
  run st (for_connections idx todo st).
Proof.
  revert idx st. induction todo as [|c todo IH]; intros idx st; simpl.
  - apply run_refl.
  - eapply run_trans; [apply for_relations_run|apply IH].
Qed.

Lemma named_connection_body_run nc st :
  run st (named_connection_body nc st).
Proof.
  unfold named_connection_body.
  destruct (find nc "connection") as [c|]; [|apply run_refl].
  destruct (get_opt c "one-time-sql") as [t|]; [|apply run_refl].
  rewrite guard_strip. destruct (Str.truthy (Str.strip t)) eqn:Ht;
    [|apply run_refl].
  apply truthy_true in Ht. by apply run_one, event_initial.
Qed.

Lemma for_named_connections_run todo st :
  run st (for_named_connections todo st).
Proof.
  revert st. induction todo as [|c todo IH]; intros st; simpl.
  - apply run_refl.
  - eapply run_trans; [apply named_connection_body_run|apply IH].
Qed.

Lemma process_root_run root st : run st (process_root root st).
Proof.
  unfold process_root.
  eapply run_trans; [apply for_connections_run|].
  apply for_named_connections_run.
Qed.

Lemma for_tds_files_run z todo st : run st (for_tds_files z todo st).1.
Proof.
  revert st. induction todo as [|f todo IH]; intros st; simpl.
  - apply run_refl.
  - destruct (parse_entry z f) as [e|root]; simpl.
    + by apply run_notice.
    + eapply run_trans; [|apply IH].
      eapply run_trans; [|apply process_root_run]. by apply run_notice.
Qed.

Lemma handler_notice p e : notice (handler p e) = true.
Proof. by destruct e. Qed.

Lemma try_block_run w p st : run st (try_block w p st).1.
Proof.
  unfold try_block. destruct (open_zip w) as [e|z].
  { simpl. apply run_notice, handler_notice. }
  cbv zeta. destruct (filter _ (namelist z)) as [|f l].
  { simpl. by apply run_notice. }
  pose proof (for_tds_files_run z (f :: l) st) as H.
  destruct (for_tds_files z (f :: l) st) as [st' [e|]]; simpl in *.
  - eapply run_trans; [exact H|]. apply run_notice, handler_notice.
  - done.
Qed.

(** The keys after an assignment: in place when present, last when new. *)
Lemma keys_dict_set k v d :
  keys (dict_set k v d) = if decide (k ∈ keys d) then keys d else keys d ++ [k].
Proof.
  induction d as [|[k' v'] d IH].
  - destruct (decide (k ∈ keys [])) as [H|H]; [by apply elem_of_nil in H|done].
  - change (keys ((k', v') :: d)) with (k' :: keys d).
    simpl dict_set. destruct (String.eqb_spec k k') as [->|Hne].
    + destruct (decide (k' ∈ k' :: keys d)) as [H|H]; [reflexivity|].
      exfalso. apply H, list_elem_of_here.
    + change (keys ((k', v') :: dict_set k v d))
        with (k' :: keys (dict_set k v d)).
      rewrite IH.
      destruct (decide (k ∈ keys d)) as [H|H];
        destruct (decide (k ∈ k' :: keys d)) as [H'|H']; try reflexivity.
      * exfalso. apply H'. by apply list_elem_of_further.
      * exfalso. apply elem_of_cons in H' as [?|?]; done.
Qed.

Lemma first_seen_snoc l k :
  first_seen (l ++ [k]) =
  if decide (k ∈ first_seen l) then first_seen l else first_seen l ++ [k].
Proof.
  unfold first_seen. rewrite reverse_snoc. simpl.
  assert (k ∈ reverse (remove_dups (reverse l)) ↔ k ∈ reverse l) as Hiff.
  { by rewrite elem_of_reverse, elem_of_remove_dups. }
  destruct (decide_rel elem_of k (reverse l)) as [Hin|Hin];
    destruct (decide (k ∈ reverse (remove_dups (reverse l)))) as [H|H];
    try tauto; rewrite ?reverse_cons; reflexivity.
Qed.

Lemma elem_of_first_seen l k : k ∈ first_seen l ↔ k ∈ l.
Proof.
  unfold first_seen.
  by rewrite elem_of_reverse, elem_of_remove_dups, elem_of_reverse.
Qed.

Lemma NoDup_first_seen l : NoDup (first_seen l).
Proof.
  unfold first_seen. rewrite reverse_Permutation. apply NoDup_remove_dups.
Qed.

Lemma event_in_step st st' : event st st' → in_step st → in_step st'.
Proof.
  unfold in_step, reported.
  intros [st0 key t _|st0 name t _|st0 m Hm] Hst; simpl;
    rewrite omap_app; simpl.
  - rewrite first_seen_snoc, keys_dict_set, Hst. done.
  - rewrite first_seen_snoc, keys_dict_set, Hst. done.
  - destruct m; try discriminate; simpl; by rewrite app_nil_r.
Qed.

Lemma run_in_step st st' : run st st' → in_step st → in_step st'.
Proof.
  induction 1 as [|st st' st'' _ IH Hev]; [done|].
  intros H. eapply event_in_step; [done|]. by apply IH.
Qed.

Lemma run_from_try st st' :
  run st st' → Forall from_try (stdout st) → Forall from_try (stdout st').
Proof.
  induction 1 as [|st st' st'' _ IH Hev]; [done|].
  intros H. specialize (IH H).
  destruct Hev as [st0 key t _|st0 name t _|st0 m Hm]; simpl;
    apply Forall_app; (split; [done|]); apply Forall_singleton.
  - right. simpl. eauto.
  - right. simpl. eauto.
  - by left.
Qed.

End events.

(** ** The call as extraction followed by the sink *)

Section call.
Implicit Types (w : World) (st : state) (d : dict) (fs : gmap string string).

Lemma after_try_run w p :
  in_step (after_try w p) ∧ Forall (λ kv, trimmed kv.2) (sql_queries (after_try w p)).
Proof.
  unfold after_try. destruct (path_exists w).
  - split.
    + eapply run_in_step; [apply try_block_run|]. reflexivity.
    + eapply steps_trimmed; [apply try_block_steps|]. constructor.
  - split; [reflexivity|constructor].
Qed.

(** Without an output directory the call returns what the [try] statement
    left. *)
Lemma extract_None w p :
  extract_sql_from_tdsx w p None =
  {| value := Returns (sql_queries (after_try w p));
     output := stdout (after_try w p); disk := files w |}.
Proof.
  unfold extract_sql_from_tdsx, after_try.
  destruct (path_exists w); simpl; [|done].
  by destruct (try_block w p init) as [st []].
Qed.

(** The sink, once and for all. *)
Lemma for_items_written w dir todo fs out :
  for_items w dir todo fs out =
  (if decide (written w dir todo = todo) then None else Some OSError,
   write_all dir (written w dir todo) fs,
   out ++ saved dir (written w dir todo)).
Proof.
  revert fs out. induction todo as [|[k v] todo IH]; intros fs out.
  { simpl. by rewrite app_nil_r. }
  assert (∀ (A : Type) (a b : A) (l l' : dict),
            (if decide ((k, v) :: l = (k, v) :: l') then a else b)
            = (if decide (l = l') then a else b)) as Hcons.
  { intros A a b l l'.
    destruct (decide (l = l')) as [->|E].
    - by rewrite decide_True.
    - rewrite decide_False; [done|]. intros [= E']. by apply E. }
  cbn [for_items written]. fold (file_of dir k).
  destruct (writable w (file_of dir k)).
  - rewrite IH, Hcons. f_equal. unfold saved.
    rewrite fmap_cons, <- app_assoc. reflexivity.
  - rewrite decide_False by done. unfold saved.
    by rewrite fmap_nil, app_nil_r.
Qed.

(** With an output directory: the same extraction, then the sink. *)
Lemma extract_Some w p dir :
  extract_sql_from_tdsx w p (Some dir) =
  let st := after_try w p in
  if Str.truthy dir && dict_truthy (sql_queries st) then
    if makedirs_ok w then
      {| value := if decide (written w dir (sql_queries st) = sql_queries st)
                  then Returns (sql_queries st) else Raises OSError;
         output := stdout st ++ saved dir (written w dir (sql_queries st));
         disk := write_all dir (written w dir (sql_queries st)) (files w) |}
    else {| value := Raises OSError; output := stdout st; disk := files w |}
  else extract_sql_from_tdsx w p None.
Proof.
  rewrite extract_None. unfold extract_sql_from_tdsx, after_try.
  destruct (path_exists w); simpl.
  2:{ by rewrite andb_false_r. }
  pose proof (try_block_returned w p init) as Hret.
  destruct (try_block w p init) as [st returned]. simpl in *.
  destruct returned.
  { rewrite Hret by done. simpl. by rewrite andb_false_r. }
  destruct (Str.truthy dir && dict_truthy (sql_queries st)); [|done].
  destruct (makedirs_ok w); [|done].
  rewrite for_items_written.
  by destruct (decide (written w dir (sql_queries st) = sql_queries st)).
Qed.

Lemma written_prefix w dir todo : written w dir todo `prefix_of` todo.
Proof.
  induction todo as [|[k v] todo IH]; simpl; [done|].
  destruct (writable w _); [by apply prefix_cons|apply prefix_nil].
Qed.

Lemma written_all w dir todo :
  written w dir todo = todo ↔
  ∀ k, k ∈ keys todo → writable w (file_of dir k) = true.
Proof.
  induction todo as [|[k v] todo IH]; simpl.
  { split; [intros _ k H; by apply elem_of_nil in H|done]. }
  destruct (writable w (file_of dir k)) eqn:Hw.
  - split.
    + intros [= E] k' [->|Hk']%elem_of_cons; [done|]. by apply IH.
    + intros H. f_equal. apply IH. intros k' Hk'. apply H.
      by apply list_elem_of_further.
  - split; [done|]. intros H. rewrite H in Hw; [done|]. apply list_elem_of_here.
Qed.

Lemma reported_saved out dir entries :
  reported (out ++ saved dir entries) = reported out.
Proof.
  unfold reported, saved. rewrite omap_app.
  assert (omap label_of ((λ kv, MsgSaved (file_of dir kv.1)) <$> entries) = [])
    as ->; [|by rewrite app_nil_r].
  induction entries as [|kv entries IH]; [done|]. simpl. exact IH.
Qed.

Lemma write_all_cons dir k v entries fs :
  write_all dir ((k, v) :: entries) fs
  = write_all dir entries (<[file_of dir k := v]> fs).
Proof. reflexivity. Qed.

Lemma write_all_other dir entries fs path :
  (∀ k, k ∈ keys entries → file_of dir k ≠ path) →
  write_all dir entries fs !! path = fs !! path.
Proof.
  revert fs. induction entries as [|[k v] entries IH]; intros fs Hk; [done|].
  rewrite write_all_cons, IH.
  - apply lookup_insert_ne. apply Hk. apply list_elem_of_here.
  - intros k' Hk'. apply Hk. by apply list_elem_of_further.
Qed.

Lemma write_all_lookup dir entries fs k v :
  NoDup (map safe_name (keys entries)) → (k, v) ∈ entries →
  write_all dir entries fs !! file_of dir k = Some v.
Proof.
  revert fs. induction entries as [|[k0 v0] entries IH]; intros fs.
  { intros _ H. by apply elem_of_nil in H. }
  rewrite write_all_cons. simpl. rewrite NoDup_cons, elem_of_cons.
  intros [Hfresh Hnd] [[= -> ->]|Hin].
  - rewrite write_all_other; [apply lookup_insert_eq|].
    intros k' Hk' E. unfold file_of in E. apply path_join_inj in E.
    apply Hfresh. rewrite <- E. by apply (list_elem_of_fmap_2 safe_name).
  - by apply IH.
Qed.

End call.

Section call_facts.
Implicit Types (w : World) (d : dict).

Lemma after_try_no_saved w p path : MsgSaved path ∉ stdout (after_try w p).
Proof.
  unfold after_try. destruct (path_exists w).
  - assert (Forall from_try (stdout (try_block w p init).1)) as H.
    { eapply run_from_try; [apply try_block_run|]. constructor. }
    rewrite Forall_forall in H. intros Hin. by destruct (H _ Hin) as [?|[? ?]].
  - simpl. rewrite list_elem_of_singleton. discriminate.
Qed.

Lemma saved_elem dir entries path :
  MsgSaved path ∈ saved dir entries → ∃ k, k ∈ keys entries ∧ path = file_of dir k.
Proof.
  unfold saved. intros ([k v] & [= ->] & Hin)%list_elem_of_fmap.
  exists k. split; [|done]. by apply (list_elem_of_fmap_2 fst) in Hin.
Qed.

Lemma written_keys w dir todo k :
  k ∈ keys (written w dir todo) → k ∈ keys todo.
Proof.
  destruct (written_prefix w dir todo) as [rest E]. intros H.
  rewrite E. unfold keys. rewrite map_app. apply elem_of_app. by left.
Qed.

Lemma written_stop w dir pre k v post :
  (∀ k', k' ∈ keys pre → writable w (file_of dir k') = true) →
  writable w (file_of dir k) = false →
  written w dir (pre ++ (k, v) :: post) = pre.
Proof.
  intros Hpre Hk. induction pre as [|[k0 v0] pre IH]; simpl.
  - by rewrite Hk.
  - rewrite Hpre by apply list_elem_of_here. f_equal. apply IH.
    intros k' Hk'. apply Hpre. by apply list_elem_of_further.
Qed.

Lemma dict_truthy_true d : dict_truthy d = true ↔ d ≠ [].
Proof. by destruct d. Qed.


End call_facts.

Import Scenario.

(** ** X1: the labels of the mapping and the reports on the output *)

(** X1.  The labels of the mapping that is returned are, in order, the labels
    reported as found on the output, each at the place of its first report;
    so no label occurs twice, and a label is in the mapping exactly when it
    was reported. *)
Theorem X1_labels_follow_reports w tdsx_path output_dir d :
  let r := extract_sql_from_tdsx w tdsx_path output_dir in
  value r = Returns d →
  keys d = first_seen (reported (output r))
  ∧ NoDup (keys d)
  ∧ (∀ k, k ∈ keys d ↔ k ∈ reported (output r)).
Proof.
  intros r Hd.
  assert (keys d = first_seen (reported (output r))) as E.
  { destruct (after_try_run w tdsx_path) as [Hstep _]. unfold in_step in Hstep.
    unfold r in *. destruct output_dir as [dir|].
    - rewrite extract_Some in *. cbv zeta in *.
      destruct (_ && _).
      + destruct (makedirs_ok w); [|done]. simpl in *.
        destruct (decide _) as [_|_]; [|done].
        injection Hd as <-. by rewrite reported_saved.
      + rewrite extract_None in *. simpl in *. by injection Hd as <-.
    - rewrite extract_None in *. simpl in *. by injection Hd as <-. }
  split; [exact E|]. rewrite E. split; [apply NoDup_first_seen|].
  intros k. apply elem_of_first_seen.
Qed.

Lemma X1_witness :
  keys [("pg", "SELECT 2"); ("src_initial_sql", "SET x")]
  = first_seen ["pg"; "pg"; "src_initial_sql"].
Proof.
  exact (proj1 (X1_labels_follow_reports repeated "x.tdsx" None
                  [("pg", "SELECT 2"); ("src_initial_sql", "SET x")]
                  eq_refl)).
Defined.

(** ** X2: a call without an output directory *)

(** X2.  Without an output directory, or with the empty string for it, the
    call always returns a mapping, whatever the archive and the parser do; it
    leaves the disk as it was and prints no [Saved] message; and the empty
    string behaves as no directory at all. *)
Theorem X2_no_output_dir w tdsx_path output_dir :
  output_dir = None ∨ output_dir = Some "" →
  let r := extract_sql_from_tdsx w tdsx_path output_dir in
  (∃ d, value r = Returns d)
  ∧ disk r = files w
  ∧ (∀ path, MsgSaved path ∉ output r)
  ∧ r = extract_sql_from_tdsx w tdsx_path None.
Proof.
  intros Ho r.
  assert (r = extract_sql_from_tdsx w tdsx_path None) as E.
  { unfold r. destruct Ho as [->| ->]; [done|]. by rewrite extract_Some. }
  rewrite E, extract_None. simpl.
  split; [eauto|]. split; [done|]. split; [|done].
  intros path. apply after_try_no_saved.
Qed.

Lemma X2_witness :
  disk (extract_sql_from_tdsx two_entries "x.tdsx" (Some "")) = ∅.
Proof.
  apply (X2_no_output_dir two_entries "x.tdsx" (Some "")). by right.
Defined.

(** ** X3: a path that is missing or cannot be opened *)

(** X3.  When there is no file at the path, or opening it as a zip archive
    raises any exception, the call returns the empty mapping, prints exactly
    one message, the one of that failure, and writes nothing, whatever output
    directory is given. *)
Theorem X3_unreadable_source w tdsx_path output_dir :
  path_exists w = false ∨ (∃ e, open_zip w = Raises e) →
  extract_sql_from_tdsx w tdsx_path output_dir
  = {| value := Returns [];
       output :=
         [if path_exists w then
            match open_zip w with
            | Raises e => handler tdsx_path e
            | Returns _ => MsgNoTdsFile
            end
          else MsgFileNotFound tdsx_path];
       disk := files w |}.
Proof.
  intros H.
  assert (after_try w tdsx_path =
          {| sql_queries := [];
             stdout := [if path_exists w then
                          match open_zip w with
                          | Raises e => handler tdsx_path e
                          | Returns _ => MsgNoTdsFile
                          end
                        else MsgFileNotFound tdsx_path] |}) as E.
  { unfold after_try, try_block. destruct (path_exists w); [|done].
    destruct H as [?|[e He]]; [done|]. by rewrite He. }
  destruct output_dir as [dir|].
  - rewrite extract_Some, extract_None, E. simpl. by rewrite andb_false_r.
  - by rewrite extract_None, E.
Qed.

Lemma X3_witness :
  extract_sql_from_tdsx missing "gone.tdsx" (Some "out")
  = {| value := Returns []; output := [MsgFileNotFound "gone.tdsx"];
       disk := ∅ |}.
Proof.
  apply (X3_unreadable_source missing "gone.tdsx" (Some "out")). by left.
Defined.

(** ** X4: the output directory does not change what is extracted *)

(** X4.  When the call with a non-empty output directory returns a mapping,
    the call without one returns the same mapping; the output is the one of
    that call followed by one [Saved] message per entry, in the order of the
    mapping, and the disk is the old one with the file of each entry written
    in that order. *)
Theorem X4_sink_after_extraction w tdsx_path dir d :
  dir ≠ "" →
  value (extract_sql_from_tdsx w tdsx_path (Some dir)) = Returns d →
  let r0 := extract_sql_from_tdsx w tdsx_path None in
  let r := extract_sql_from_tdsx w tdsx_path (Some dir) in
  value r0 = Returns d
  ∧ output r = output r0 ++ saved dir d
  ∧ disk r = write_all dir d (files w).
Proof.
  intros Hdir Hd r0 r. unfold r, r0 in *.
  rewrite extract_Some in *. cbv zeta in *. rewrite extract_None in *.
  apply truthy_true in Hdir. rewrite Hdir in *. simpl in *.
  destruct (dict_truthy (sql_queries (after_try w tdsx_path))) eqn:Hne.
  - destruct (makedirs_ok w); [|done]. simpl in *.
    destruct (decide _) as [E|_]; [|done].
    injection Hd as <-. by rewrite E.
  - simpl in *. injection Hd as <-.
    destruct (sql_queries (after_try w tdsx_path)); [|done].
    simpl. by rewrite app_nil_r.
Qed.

Lemma X4_witness :
  output (extract_sql_from_tdsx two_entries "x.tdsx" (Some "out"))
  = output (extract_sql_from_tdsx two_entries "x.tdsx" None)
    ++ [MsgSaved "out/a_b.sql"; MsgSaved "out/src_initial_sql.sql"].
Proof.
  refine (proj1 (proj2 (X4_sink_after_extraction two_entries "x.tdsx" "out"
                          [("a.b", "SELECT 1"); ("src_initial_sql", "SELECT 3")]
                          _ eq_refl))).
  discriminate.
Defined.

(** ** X5: the only exception that escapes *)



(** ** X6: a directory that cannot be created *)

(** X6.  When the mapping extracted is not empty, a non-empty output
    directory is given and it cannot be created, the [OSError] escapes; the
    output is the one of the extraction alone and no file is written. *)
Theorem X6_makedirs_failure w tdsx_path dir d :
  value (extract_sql_from_tdsx w tdsx_path None) = Returns d →
  d ≠ [] → dir ≠ "" → makedirs_ok w = false →
  extract_sql_from_tdsx w tdsx_path (Some dir)
  = {| value := Raises OSError;
       output := output (extract_sql_from_tdsx w tdsx_path None);
       disk := files w |}.
Proof.
  intros Hd Hne Hdir Hmk. rewrite extract_Some. cbv zeta.
  rewrite extract_None in *. simpl in *. injection Hd as <-.
  apply truthy_true in Hdir. apply dict_truthy_true in Hne.
  by rewrite Hdir, Hne, Hmk.
Qed.

Lemma X6_witness :
  disk (extract_sql_from_tdsx (no_mkdir two_entries) "x.tdsx" (Some "out"))
  = ∅.
Proof.
  by rewrite (X6_makedirs_failure (no_mkdir two_entries) "x.tdsx" "out"
                [("a.b", "SELECT 1"); ("src_initial_sql", "SELECT 3")]
                eq_refl ltac:(discriminate) ltac:(discriminate) eq_refl).
Defined.

(** ** X7: a file that cannot be opened *)

(** X7.  When the file of an entry cannot be opened and the files of the
    entries before it can, the [OSError] escapes after those files have been
    written: the output ends with their [Saved] messages, the disk holds
    them, a file of the entries before that no later one of them shares is
    read back with its entry's text, and nothing is written for the entry
    that failed or for those after it. *)
Theorem X7_write_failure w tdsx_path dir pre k v post :
  value (extract_sql_from_tdsx w tdsx_path None)
  = Returns (pre ++ (k, v) :: post) →
  dir ≠ "" → makedirs_ok w = true →
  (∀ k', k' ∈ keys pre → writable w (file_of dir k') = true) →
  writable w (file_of dir k) = false →
  let r := extract_sql_from_tdsx w tdsx_path (Some dir) in
  r = {| value := Raises OSError;
         output := output (extract_sql_from_tdsx w tdsx_path None)
                   ++ saved dir pre;
         disk := write_all dir pre (files w) |}
  ∧ (NoDup (map safe_name (keys pre)) →
     ∀ k' v', (k', v') ∈ pre → disk r !! file_of dir k' = Some v')
  ∧ (∀ path, (∀ k', k' ∈ keys pre → file_of dir k' ≠ path) →
             disk r !! path = files w !! path).
Proof.
  intros Hd Hdir Hmk Hpre Hk r.
  assert (r = {| value := Raises OSError;
                 output := output (extract_sql_from_tdsx w tdsx_path None)
                           ++ saved dir pre;
                 disk := write_all dir pre (files w) |}) as E.
  { unfold r. rewrite extract_Some. cbv zeta.
    rewrite extract_None in *. simpl in *. injection Hd as Hd.
    apply truthy_true in Hdir. rewrite Hdir, Hd, Hmk.
    rewrite (written_stop w dir pre k v post Hpre Hk).
    assert (dict_truthy (pre ++ (k, v) :: post) = true) as ->
      by (by destruct pre).
    simpl. rewrite decide_False; [done|].
    intros E. apply (f_equal length) in E. rewrite List.length_app in E.
    simpl in E. lia. }
  split; [exact E|]. rewrite E. simpl. split.
  - intros Hnd k' v' Hin. by apply write_all_lookup.
  - intros path Hpath. by apply write_all_other.
Qed.

Lemma X7_witness :
  let r := extract_sql_from_tdsx (locked "out/b.sql" three) "x.tdsx"
             (Some "out") in
  value r = Raises OSError
  ∧ disk r !! "out/a.sql" = Some "SELECT 1"
  ∧ disk r !! "out/b.sql" = None
  ∧ disk r !! "out/c.sql" = None.
Proof.
  intros r.
  destruct (X7_write_failure (locked "out/b.sql" three) "x.tdsx" "out"
              [("a", "SELECT 1")] "b" "SELECT 2" [("c", "SELECT 3")]
              eq_refl ltac:(discriminate) eq_refl) as (E & Hpre & Hother).
  - intros k' Hk'. apply list_elem_of_singleton in Hk' as ->. reflexivity.
  - reflexivity.
  - fold r in E, Hpre, Hother. split; [by rewrite E|]. split.
    + apply (Hpre ltac:(apply NoDup_singleton) "a" "SELECT 1").
      apply list_elem_of_here.
    + split.
      * rewrite (Hother "out/b.sql"); [reflexivity|].
        intros k' Hk'. apply list_elem_of_singleton in Hk' as ->. discriminate.
      * rewrite (Hother "out/c.sql"); [reflexivity|].
        intros k' Hk'. apply list_elem_of_singleton in Hk' as ->. discriminate.
Defined.

(** ** X8: the files the call can touch *)

(** X8.  Whatever happens in the sink, a path that is not the file of one of
    the labels extracted keeps the content it had, or stays absent: the call
    writes to no other file and removes none. *)
Theorem X8_sink_footprint w tdsx_path dir d path :
  value (extract_sql_from_tdsx w tdsx_path None) = Returns d →
  (∀ k, k ∈ keys d → file_of dir k ≠ path) →
  disk (extract_sql_from_tdsx w tdsx_path (Some dir)) !! path
  = files w !! path.
Proof.
  intros Hd Hpath. rewrite extract_Some. cbv zeta.
  rewrite extract_None in *. simpl in *. injection Hd as <-.
  destruct (_ && _); [|done]. destruct (makedirs_ok w); [|done]. simpl.
  apply write_all_other. intros k Hk. apply Hpath.
  by apply written_keys in Hk.
Qed.

Lemma X8_witness :
  disk (extract_sql_from_tdsx (with_file "out/notes.txt" "keep" two_entries)
          "x.tdsx" (Some "out")) !! "out/notes.txt"
  = Some "keep".
Proof.
  rewrite (X8_sink_footprint (with_file "out/notes.txt" "keep" two_entries)
             "x.tdsx" "out"
             [("a.b", "SELECT 1"); ("src_initial_sql", "SELECT 3")]
             "out/notes.txt" eq_refl).
  - reflexivity.
  - intros k Hk. apply elem_of_cons in Hk as [->|Hk]; [discriminate|].
    apply list_elem_of_singleton in Hk as ->. discriminate.
Defined.

(** ** X9: a document without SQL *)

Section blank.
Implicit Types (st : state).

Lemma for_relations_blank name rels i todo st :
  (∀ r, r ∈ todo → has_sql r = false) →
  for_relations name rels i todo st = st.
Proof.
  revert i st. induction todo as [|r todo IH]; intros i st H; simpl; [done|].
  rewrite relation_body_skip by (apply H, list_elem_of_here).
  apply IH. intros r' Hr'. apply H. by apply list_elem_of_further.
Qed.

Lemma for_connections_blank idx todo st :
  (∀ c r, c ∈ todo → r ∈ text_relations c → has_sql r = false) →
  for_connections idx todo st = st.
Proof.
  revert idx st. induction todo as [|c todo IH]; intros idx st H; simpl;
    [done|].
  unfold connection_body. rewrite for_relations_blank.
  - apply IH. intros c' r Hc'. apply H. by apply list_elem_of_further.
  - intros r. apply H, list_elem_of_here.
Qed.

Lemma for_named_connections_blank todo st :
  (∀ nc c sql, nc ∈ todo → find nc "connection" = Some c →
               get_opt c "one-time-sql" = Some sql →
               Str.all_space sql = true) →
  for_named_connections todo st = st.
Proof.
  revert st. induction todo as [|nc todo IH]; intros st H; simpl; [done|].
  assert (named_connection_body nc st = st) as ->.
  { unfold named_connection_body.
    destruct (find nc "connection") as [c|] eqn:Hc; [|done].
    destruct (get_opt c "one-time-sql") as [sql|] eqn:Hsql; [|done].
    rewrite guard_strip.
    assert (Str.strip sql = "") as ->; [|done].
    apply strip_blank. apply (H nc c sql); [apply list_elem_of_here|done..]. }
  apply IH. intros nc' c sql Hnc'. apply H. by apply list_elem_of_further.
Qed.

End blank.

(** X9.  A document in which no text relation of any connection carries SQL
    and no named connection has a first nested connection with a non-blank
    [one-time-sql] changes neither the mapping nor the output, whatever else
    it contains. *)
Theorem X9_nothing_to_extract root st :
  (∀ c r, c ∈ findall root "connection" → r ∈ text_relations c →
          has_sql r = false) →
  (∀ nc c sql, nc ∈ findall root "named-connection" →
               find nc "connection" = Some c →
               get_opt c "one-time-sql" = Some sql →
               Str.all_space sql = true) →
  process_root root st = st.
Proof.
  intros Hconn Hnamed. unfold process_root.
  rewrite for_connections_blank by done.
  by apply for_named_connections_blank.
Qed.

Lemma X9_witness :
  process_root
    (datasource [conn "pg" [rel "  "; Elem "relation" ∅ (Some "SELECT 1") []];
                 named "src" " "])
    init
  = init.
Proof.
  apply X9_nothing_to_extract.
  - intros c r Hc Hr. vm_compute in Hc.
    apply elem_of_cons in Hc as [->|Hc].
    + vm_compute in Hr. apply list_elem_of_singleton in Hr as ->. reflexivity.
    + apply list_elem_of_singleton in Hc as ->. vm_compute in Hr.
      by apply elem_of_nil in Hr.
  - intros nc c sql Hnc Hc Hsql. vm_compute in Hnc.
    apply list_elem_of_singleton in Hnc as ->.
    vm_compute in Hc. injection Hc as <-.
    vm_compute in Hsql. injection Hsql as <-. reflexivity.
Defined.

(** ** X10 and X11: the names of the files *)

Section names.

Lemma kept_safe_char c : kept (safe_char c) = true.
Proof. destruct c as [[] [] [] [] [] [] [] []]; reflexivity. Qed.

Lemma safe_char_kept c : kept c = true → safe_char c = c.
Proof. unfold safe_char, kept. by intros ->. Qed.

Lemma kept_not_slash c : kept c = true → not_slash c = true.
Proof. destruct c as [[] [] [] [] [] [] [] []]; vm_compute; done. Qed.

Lemma all_chars_app p s1 s2 :
  all_chars p (s1 +:+ s2) = all_chars p s1 && all_chars p s2.
Proof.
  induction s1 as [|c s1 IH]; [done|].
  change (String c s1 +:+ s2) with (String c (s1 +:+ s2)).
  change (all_chars p (String c (s1 +:+ s2)))
    with (p c && all_chars p (s1 +:+ s2)).
  change (all_chars p (String c s1)) with (p c && all_chars p s1).
  by rewrite IH, andb_assoc.
Qed.

Lemma all_chars_impl (p q : ascii → bool) s :
  (∀ c, p c = true → q c = true) → all_chars p s = true → all_chars q s = true.
Proof.
  intros Hpq. induction s as [|c s IH]; [done|].
  change (all_chars p (String c s)) with (p c && all_chars p s).
  change (all_chars q (String c s)) with (q c && all_chars q s).
  intros [Hc Hs]%andb_true_iff. by rewrite (Hpq c Hc), IH.
Qed.

Lemma safe_name_cons c k :
  safe_name (String c k) = String (safe_char c) (safe_name k).
Proof. reflexivity. Qed.

Lemma all_chars_cons p c s :
  all_chars p (String c s) = p c && all_chars p s.
Proof. reflexivity. Qed.

Lemma all_chars_safe_name k : all_chars kept (safe_name k) = true.
Proof.
  induction k as [|c k IH]; [done|].
  by rewrite safe_name_cons, all_chars_cons, kept_safe_char, IH.
Qed.

Lemma safe_name_fixed k : all_chars kept k = true → safe_name k = k.
Proof.
  induction k as [|c k IH]; [done|].
  rewrite safe_name_cons, all_chars_cons.
  intros [Hc Hk]%andb_true_iff.
  by rewrite (safe_char_kept c Hc), (IH Hk).
Qed.

End names.

(** X10.  A safe name consists of characters that [str.isalnum] accepts,
    hyphens and underscores only; taking the safe name of a safe name changes
    nothing, and a label that already consists of such characters is its own
    safe name. *)
Theorem X10_safe_name_chars k :
  all_chars kept (safe_name k) = true
  ∧ safe_name (safe_name k) = safe_name k
  ∧ (all_chars kept k = true → safe_name k = k).
Proof.
  split; [apply all_chars_safe_name|]. split; [|apply safe_name_fixed].
  apply safe_name_fixed, all_chars_safe_name.
Qed.

(** X11.  For a non-empty output directory the file of a label is the
    directory, a separator unless the directory ends with one, the safe name
    and [.sql]; the part after the directory contains no separator, so the
    file lies in the directory itself whatever the label is; and two labels
    have the same file exactly when they have the same safe name. *)
Theorem X11_file_in_directory dir k1 k2 :
  dir ≠ "" →
  file_of dir k1
  = (if Str.endswith dir "/" then dir else dir +:+ "/")
    +:+ safe_name k1 +:+ ".sql"
  ∧ all_chars not_slash (safe_name k1 +:+ ".sql") = true
  ∧ (file_of dir k1 = file_of dir k2 ↔ safe_name k1 = safe_name k2).
Proof.
  intros Hdir. split; [|split].
  - unfold file_of, path_join. rewrite file_name_not_absolute.
    apply String.eqb_neq in Hdir. rewrite Hdir. simpl.
    destruct (Str.endswith dir "/"); [done|].
    clear. induction dir as [|c dir IH]; [done|].
    change (String c dir +:+ "/" +:+ safe_name k1 +:+ ".sql")
      with (String c (dir +:+ "/" +:+ safe_name k1 +:+ ".sql")).
    change ((String c dir +:+ "/") +:+ safe_name k1 +:+ ".sql")
      with (String c ((dir +:+ "/") +:+ safe_name k1 +:+ ".sql")).
    by rewrite IH.
  - rewrite all_chars_app. apply andb_true_iff. split; [|reflexivity].
    apply (all_chars_impl kept); [apply kept_not_slash|].
    apply all_chars_safe_name.
  - split.
    + apply path_join_inj.
    + unfold file_of. by intros ->.
Qed.

Lemma X11_witness :
  file_of "out" "../etc/passwd" = "out/___etc_passwd.sql".
Proof.
  rewrite (proj1 (X11_file_in_directory "out" "../etc/passwd" "" 
                    ltac:(discriminate))).
  reflexivity.
Defined.


(** * Properties of [cli] and [download_from_tableau_server] *)

(** ** X12 and X13: the arguments after the path *)

Section arguments.
Implicit Types (o t : option string) (items : list item) (l : list string).

Lemma parse_args_token v rest o t :
  parse_args ("--token" :: v :: rest) o t = parse_args rest o (Some v).
Proof. reflexivity. Qed.

Lemma parse_args_plain a rest o t :
  a ≠ "--token" ∨ rest = [] →
  parse_args (a :: rest) o t =
  if negb (option_truthy o) && negb (Str.startswith a "--")
  then parse_args rest (Some a) t
  else parse_args rest o t.
Proof.
  intros H. cbn [parse_args].
  destruct (String.eqb_spec a "--token") as [->|Hne]; [|done].
  destruct H as [? | ->]; done.
Qed.

Lemma well_split_tail i items : well_split (i :: items) → well_split items.
Proof.
  intros H before after E. apply (H (i :: before) after). by rewrite E.
Qed.

Lemma well_split_head a items :
  well_split (Plain a :: items) → a ≠ "--token" ∨ flatten items = [].
Proof.
  intros H. destruct (String.eqb_spec a "--token") as [->|Hne]; [|by left].
  right. by rewrite (H [] items eq_refl).
Qed.

(** The loop handles one item at a time. *)
Lemma parse_args_item i items o t :
  well_split (i :: items) →
  parse_args (flatten (i :: items)) o t =
  match i with
  | Token v => parse_args (flatten items) o (Some v)
  | Plain a =>
      if negb (option_truthy o) && negb (Str.startswith a "--")
      then parse_args (flatten items) (Some a) t
      else parse_args (flatten items) o t
  end.
Proof.
  intros H. destruct i as [v|a].
  - apply parse_args_token.
  - change (flatten (Plain a :: items)) with (a :: flatten items).
    apply parse_args_plain. by apply well_split_head.
Qed.

Lemma positionals_plain a items :
  positionals (Plain a :: items)
  = if Str.startswith a "--" then positionals items else a :: positionals items.
Proof.
  unfold positionals. cbn [omap list_omap].
  by destruct (Str.startswith a "--").
Qed.

Lemma positionals_token v items :
  positionals (Token v :: items) = positionals items.
Proof. reflexivity. Qed.

(** Once a directory is chosen it stays. *)
Lemma parse_args_dir_fixed items o t :
  well_split items → option_truthy o = true →
  (parse_args (flatten items) o t).1 = o.
Proof.
  revert o t. induction items as [|i items IH]; intros o t Hw Ho; [done|].
  rewrite parse_args_item by done. pose proof (well_split_tail _ _ Hw).
  destruct i as [v|a]; [by apply IH|].
  rewrite Ho. simpl. by apply IH.
Qed.

(** Every list of arguments is the flattening of well split items, so the
    two statements below speak of every command line. *)
Lemma itemize_spec l : flatten (itemize l) = l ∧ well_split (itemize l).
Proof.
  assert (∀ n l, length l ≤ n →
            flatten (itemize l) = l ∧ well_split (itemize l)) as H.
  { clear l. induction n as [|n IH]; intros l Hn.
    { destruct l; [|simpl in Hn; lia]. split; [done|].
      intros before after E. by destruct before. }
    destruct l as [|a l']; [apply (IH []); simpl; lia|].
    simpl in Hn. cbn [itemize].
    destruct (String.eqb_spec a "--token") as [->|Hne].
    - destruct l' as [|v l''].
      + split; [done|]. intros before after E.
        destruct before as [|? [|? ?]]; simplify_eq/=; done.
      + destruct (IH l'') as [Hf Hw]; [simpl in Hn; lia|]. split.
        * change (flatten (Token v :: itemize l''))
            with ("--token" :: v :: flatten (itemize l'')).
          by rewrite Hf.
        * intros before after E. destruct before as [|i before];
            simplify_eq/=. by apply (Hw before after).
    - destruct (IH l') as [Hf Hw]; [lia|].
      assert (flatten (Plain a :: itemize l') = a :: l') as Hf'.
      { change (flatten (Plain a :: itemize l'))
          with (a :: flatten (itemize l')).
        by rewrite Hf. }
      assert (well_split (Plain a :: itemize l')) as Hw'.
      { intros before after E. destruct before as [|i before];
          simplify_eq/=. by apply (Hw before after). }
      by destruct l'. }
  by apply (H (length l)).
Qed.

End arguments.

(** X12.  The access token is the value given with the last [--token], taken
    as it is, also when it starts with [--] or looks like a directory; without
    a [--token] that has an argument after it, the token is the initial one.
    A [--token] that is the last argument is ignored. *)
Theorem X12_last_token_wins items o t :
  well_split items →
  (parse_args (flatten items) o t).2
  = match last (token_values items) with
    | Some v => Some v
    | None => t
    end.
Proof.
  revert o t. induction items as [|i items IH]; intros o t Hw; [done|].
  rewrite parse_args_item by done. pose proof (well_split_tail _ _ Hw) as Hw'.
  destruct i as [v|a].
  - rewrite IH by done.
    change (token_values (Token v :: items)) with (v :: token_values items).
    rewrite last_cons. by destruct (last (token_values items)).
  - change (token_values (Plain a :: items)) with (token_values items).
    destruct (_ && _); by apply IH.
Qed.

Lemma X12_witness :
  (parse_args ["out"; "--token"; "first"; "--verbose"; "--token"; "--x";
               "--token"] None None).2
  = Some "--x".
Proof.
  apply (X12_last_token_wins
           [Plain "out"; Token "first"; Plain "--verbose"; Token "--x";
            Plain "--token"] None None).
  intros before after E.
  destruct before as [|? [|? [|? [|? [|? [|? ?]]]]]]; simplify_eq/=; done.
Defined.

(** X13.  Started without a directory, the loop takes as output directory the
    first non-empty argument that neither starts with [--] nor is the value
    of a [--token]; later ones are ignored.  If all such arguments are empty
    strings the directory is the empty string, and without any it is
    [None]. *)
Theorem X13_first_positional items t :
  well_split items →
  (parse_args (flatten items) None t).1 = first_truthy (positionals items).
Proof.
  intros Hw.
  assert (∀ o t, well_split items → option_truthy o = false →
            (parse_args (flatten items) o t).1
            = match first_truthy (positionals items) with
              | Some d => Some d
              | None => o
              end) as Hgen.
  { clear. induction items as [|i items IH]; intros o t Hw Ho; [done|].
    rewrite parse_args_item by done.
    pose proof (well_split_tail _ _ Hw) as Hw'.
    destruct i as [v|a]; [by apply IH|].
    rewrite Ho, positionals_plain. cbn [negb andb].
    destruct (Str.startswith a "--"); cbn [negb]; [by apply IH|].
    destruct (String.eqb_spec a "") as [->|Hne].
    - rewrite IH by done. unfold first_truthy.
      rewrite filter_cons_False by (intros H; by apply H).
      rewrite last_cons.
      destruct (filter _ (positionals items)); [|done].
      by destruct (last (positionals items)).
    - rewrite parse_args_dir_fixed; [|done|by apply truthy_true].
      unfold first_truthy. by rewrite filter_cons_True. }
  rewrite Hgen by done. by destruct (first_truthy (positionals items)).
Qed.

Lemma X13_witness :
  (parse_args [""; "--token"; "dir1"; "--flag"; "dir2"; "dir3"] None None).1
  = Some "dir2".
Proof.
  apply (X13_first_positional
           [Plain ""; Token "dir1"; Plain "--flag"; Plain "dir2";
            Plain "dir3"] None).
  intros before after E.
  destruct before as [|? [|? [|? [|? [|? [|? ?]]]]]]; simplify_eq/=.
Defined.

(** ** X14 to X17: runs of the command *)

Section command.
Implicit Types (m : Machine) (argv rest : list string).

(** The command with a path that is no help flag. *)
Lemma cli_path m prog path rest :
  path ∉ help_flags →
  cli m (prog :: path :: rest) =
  let '(output_dir, access_token) := parse_args rest None None in
  if is_url path then
    let d := download_from_tableau_server (net m) path access_token in
    let out := FromDownload <$> said d in
    match returned d with
    | Raises e =>
        {| status := Crashed e; console := out; extraction := None;
           removed := []; downloaded := temp d |}
    | Returns tdsx_path =>
        match tdsx_path with
        | Some f =>
            if Str.truthy f then
              let '(st, shown, r) := extract_and_show m f output_dir in
              let '(closing, gone) := finally_block m (Some f) in
              {| status := st; console := out ++ shown ++ closing;
                 extraction := Some r; removed := gone;
                 downloaded := temp d |}
            else
              {| status := Exited 1; console := out; extraction := None;
                 removed := []; downloaded := temp d |}
        | None =>
            {| status := Exited 1; console := out; extraction := None;
               removed := []; downloaded := temp d |}
        end
    end
  else
    let '(st, shown, r) := extract_and_show m path output_dir in
    {| status := st; console := shown ++ []; extraction := Some r;
       removed := []; downloaded := None |}.
Proof.
  intros Hhelp. unfold cli.
  change (length (prog :: path :: rest) <? 2)%nat with false.
  change ((prog :: path :: rest) !! 1) with (Some path).
  change (drop 2 (prog :: path :: rest)) with rest.
  cbn [default orb]. by rewrite bool_decide_eq_false_2.
Qed.

Lemma extract_and_show_status m p o :
  let r := extract_sql_from_tdsx (at_path m p) p o in
  (extract_and_show m p o).1.1
  = match value r with
    | Returns _ => Finished
    | Raises e => Crashed e
    end
  ∧ (extract_and_show m p o).2 = r
  ∧ (extract_and_show m p o).1.2
    = Extracting p :: (FromExtract <$> output r)
      ++ match value r with
         | Returns [] => [NoQueries]
         | Returns d =>
             FoundQueries (length d) :: ((λ kv, Query kv.1 kv.2) <$> d)
         | Raises _ => []
         end.
Proof.
  intros r. unfold extract_and_show. fold r.
  destruct (value r) as [e|[|kv d]]; simpl; repeat split; try done.
  by rewrite app_nil_r.
Qed.

Lemma raises_only_oserror w p o e :
  value (extract_sql_from_tdsx w p o) = Raises e → e = OSError.
Proof.
  destruct o as [dir|]; [|by rewrite extract_None].
  rewrite extract_Some. cbv zeta.
  destruct (_ && _); [|by rewrite extract_None].
  destruct (makedirs_ok w); simpl; [|by intros [= <-]].
  destruct (decide _); [done|]. by intros [= <-].
Qed.

Lemma status_of_call w p o :
  match value (extract_sql_from_tdsx w p o) with
  | Returns _ => Finished
  | Raises e => Crashed e
  end = Finished
  ∨ match value (extract_sql_from_tdsx w p o) with
    | Returns _ => Finished
    | Raises e => Crashed e
    end = Crashed OSError.
Proof.
  destruct (value (extract_sql_from_tdsx w p o)) as [e|d] eqn:E; [|by left].
  right. by rewrite (raises_only_oserror w p o e E).
Qed.

Lemma no_dir_returns w p o :
  o = None ∨ o = Some "" →
  ∃ d, value (extract_sql_from_tdsx w p o) = Returns d.
Proof.
  intros [->| ->].
  - rewrite extract_None. eauto.
  - rewrite extract_Some. simpl. rewrite extract_None. eauto.
Qed.

End command.

Import Lab.

(** X14.  With a local path the command calls the extraction on that path
    with the directory read from the arguments, shows the mapping it returns
    (the number of entries and each entry in order, or that none was found),
    removes no file and uses neither the network nor [os.unlink]; it never
    exits with a status: it finishes, also when the file is missing or is not
    an archive, or an [OSError] of the sink escapes, which needs an output
    directory. *)
Theorem X14_local_path m prog path rest :
  path ∉ help_flags → is_url path = false →
  let dir := (parse_args rest None None).1 in
  let r := extract_sql_from_tdsx (at_path m path) path dir in
  let s := cli m (prog :: path :: rest) in
  extraction s = Some r
  ∧ removed s = [] ∧ downloaded s = None
  ∧ status s = match value r with
               | Returns _ => Finished
               | Raises e => Crashed e
               end
  ∧ (status s = Finished ∨ status s = Crashed OSError)
  ∧ (dir = None ∨ dir = Some "" → status s = Finished)
  ∧ console s
    = Extracting path :: (FromExtract <$> output r)
      ++ match value r with
         | Returns [] => [NoQueries]
         | Returns d =>
             FoundQueries (length d) :: ((λ kv, Query kv.1 kv.2) <$> d)
         | Raises _ => []
         end
  ∧ (∀ m', at_path m' path = at_path m path →
           cli m' (prog :: path :: rest) = s).
Proof.
  intros Hhelp Hurl dir r s.
  assert (∀ m', at_path m' path = at_path m path →
            cli m' (prog :: path :: rest)
            = let '(st, shown, r) := extract_and_show m path dir in
              {| status := st; console := shown ++ []; extraction := Some r;
                 removed := []; downloaded := None |}) as Hcli.
  { intros m' Hm'. rewrite cli_path by done. unfold dir.
    destruct (parse_args rest None None) as [o t]. rewrite Hurl. simpl.
    unfold extract_and_show. by rewrite Hm'. }
  assert (s = let '(st, shown, r) := extract_and_show m path dir in
              {| status := st; console := shown ++ []; extraction := Some r;
                 removed := []; downloaded := None |}) as Hs.
  { by apply Hcli. }
  destruct (extract_and_show_status m path dir) as (Hst & Hr & Hshown).
  fold r in Hst, Hr, Hshown.
  destruct (extract_and_show m path dir) as [[st shown] r'].
  simpl in Hst, Hr, Hshown. subst st r' shown. rewrite Hs. simpl.
  rewrite app_nil_r.
  split; [done|]. split; [done|]. split; [done|]. split; [done|].
  split; [apply status_of_call|]. split; [|split; [done|]].
  - intros Hdir.
    destruct (no_dir_returns (at_path m path) path dir Hdir) as [d Hd].
    fold r in Hd. by rewrite Hd.
  - intros m' Hm'. rewrite (Hcli m' Hm'). simpl. by rewrite app_nil_r.
Qed.

Lemma X14_witness :
  let s := cli host ["tableau-sql"; "data.tdsx"; "--token"; "out"] in
  status s = Finished ∧ removed s = [].
Proof.
  intros s.
  destruct (X14_local_path host "tableau-sql" "data.tdsx" ["--token"; "out"])
    as (_ & Hrm & _ & _ & _ & Hfin & _).
  - vm_compute. intros H. repeat (apply elem_of_cons in H as [H|H]; [done|]).
    by apply elem_of_nil in H.
  - reflexivity.
  - split; [apply Hfin; by left|exact Hrm].
Defined.

(** X15.  With a URL whose download returns the file [f], the command runs
    the extraction on [f] and, whether the extraction returns or an
    [OSError] of the sink escapes, ends with the [finally] clause: [f] is
    removed exactly when it exists and [os.unlink] succeeds, and then, and
    only then, the last line of the console says so.  A failing [os.unlink]
    is passed over in silence. *)
Theorem X15_temp_file_cleanup m prog url rest f :
  url ∉ help_flags → is_url url = true →
  let dir := (parse_args rest None None).1 in
  let token := (parse_args rest None None).2 in
  returned (download_from_tableau_server (net m) url token)
  = Returns (Some f) →
  f ≠ "" →
  let r := extract_sql_from_tdsx (at_path m f) f dir in
  let s := cli m (prog :: url :: rest) in
  let cleaned := path_exists (at_path m f) && unlink_ok m f in
  extraction s = Some r
  ∧ status s = match value r with
               | Returns _ => Finished
               | Raises e => Crashed e
               end
  ∧ (status s = Finished ∨ status s = Crashed OSError)
  ∧ removed s = (if cleaned then [f] else [])
  ∧ (cleaned = true → last (console s) = Some (CleanedUp f))
  ∧ (cleaned = false → ∀ g, CleanedUp g ∉ console s).
Proof.
  intros Hhelp Hurl dir token Hd Hf r s cleaned.
  assert (finally_block m (Some f)
          = if cleaned then ([CleanedUp f], [f]) else ([], [])) as Hfin.
  { unfold finally_block, cleaned. apply truthy_true in Hf. rewrite Hf.
    simpl. destruct (path_exists (at_path m f)); [|done].
    by destruct (unlink_ok m f). }
  unfold s. rewrite cli_path by done. clear s. subst r dir token.
  destruct (parse_args rest None None) as [o t]. cbn [fst snd] in *.
  rewrite Hurl, Hd. apply truthy_true in Hf. rewrite Hf.
  destruct (extract_and_show_status m f o) as (Hst & Hr & Hshown).
  destruct (extract_and_show m f o) as [[st shown] r'].
  cbn [fst snd] in Hst, Hr, Hshown. subst st r' shown. rewrite Hfin.
  set (r := extract_sql_from_tdsx (at_path m f) f o).
  destruct cleaned; cbn [status console extraction removed].
  - repeat split; try done; [apply status_of_call|].
    intros _. rewrite !app_assoc. apply last_snoc.
  - repeat split; try done; [apply status_of_call|].
    intros _ g. rewrite app_nil_r, elem_of_app, elem_of_cons, elem_of_app.
    rewrite !list_elem_of_fmap.
    intros [(x & ? & _)|[?|[(x & ? & _)|H]]]; try done.
    destruct (value r) as [e|[|kv d]].
    + by apply elem_of_nil in H.
    + by apply list_elem_of_singleton in H.
    + apply elem_of_cons in H as [?|H]; [done|].
      by apply list_elem_of_fmap in H as (x & ? & _).
Qed.

Lemma X15_witness :
  let s := cli host ["tableau-sql"; page; "--token"; "secret"] in
  removed s = ["/tmp/t1.tdsx"]
  ∧ last (console s) = Some (CleanedUp "/tmp/t1.tdsx").
Proof.
  intros s.
  destruct (X15_temp_file_cleanup host "tableau-sql" page
              ["--token"; "secret"] "/tmp/t1.tdsx")
    as (_ & _ & _ & Hrm & Hlast & _).
  - vm_compute. intros H. repeat (apply elem_of_cons in H as [H|H]; [done|]).
    by apply elem_of_nil in H.
  - reflexivity.
  - reflexivity.
  - discriminate.
  - split; [exact Hrm|by apply Hlast].
Defined.

(** X16.  With a URL whose download returns no file, the command does not
    call the extraction and removes nothing: it exits with status 1, or the
    exception that escaped the download escapes the command.  Its console is
    what the download printed, and a temporary file that a broken transfer
    left behind stays where it is. *)
Theorem X16_download_failure m prog url rest :
  url ∉ help_flags → is_url url = true →
  let token := (parse_args rest None None).2 in
  let d := download_from_tableau_server (net m) url token in
  (∀ f, returned d = Returns (Some f) → f = "") →
  let s := cli m (prog :: url :: rest) in
  status s = match returned d with
             | Raises e => Crashed e
             | Returns _ => Exited 1
             end
  ∧ extraction s = None
  ∧ removed s = []
  ∧ console s = (FromDownload <$> said d)
  ∧ downloaded s = temp d.
Proof.
  intros Hhelp Hurl token d Hd s. unfold s.
  rewrite cli_path by done. unfold d, token in *.
  destruct (parse_args rest None None) as [o t]. simpl in *. rewrite Hurl.
  destruct (returned _) as [e|[f|]]; [done| |done].
  rewrite (Hd f eq_refl). done.
Qed.

Lemma X16_witness :
  let s := cli flaky_host ["tableau-sql"; page] in
  status s = Exited 1 ∧ removed s = []
  ∧ downloaded s = Some "/tmp/t2.tdsx".
Proof.
  intros s.
  destruct (X16_download_failure flaky_host "tableau-sql" page [])
    as (Hst & _ & Hrm & _ & Hleft).
  - vm_compute. intros H. repeat (apply elem_of_cons in H as [H|H]; [done|]).
    by apply elem_of_nil in H.
  - reflexivity.
  - intros f. vm_compute. discriminate.
  - split; [exact Hst|]. split; [exact Hrm|exact Hleft].
Defined.

Section statuses.
Implicit Types (m : Machine).


End statuses.


(** ** X18 to X21: the download *)

Section matching.
Implicit Types (s sub pre rest : string) (p : ascii → bool).

Lemma app_cons c s1 s2 : String c s1 +:+ s2 = String c (s1 +:+ s2).
Proof. reflexivity. Qed.

Lemma app_assoc_str s1 s2 s3 : (s1 +:+ s2) +:+ s3 = s1 +:+ s2 +:+ s3.
Proof.
  induction s1 as [|c s1 IH]; [done|]. by rewrite !app_cons, IH.
Qed.

Lemma substring_prefix s1 s2 :
  String.substring 0 (String.length s1) (s1 +:+ s2) = s1.
Proof.
  induction s1 as [|c s1 IH]; [by destruct s2|].
  rewrite app_cons. cbn [String.length String.substring]. by rewrite IH.
Qed.

Lemma startswith_app s1 s2 : Str.startswith (s1 +:+ s2) s1 = true.
Proof.
  unfold Str.startswith. rewrite substring_prefix. apply String.eqb_refl.
Qed.

Lemma contains_here s sub : Str.startswith s sub = true → contains s sub = true.
Proof. intros H. destruct s; simpl; by rewrite H. Qed.

Lemma contains_cons c s sub : contains s sub = true → contains (String c s) sub = true.
Proof. intros H. cbn [contains]. rewrite H. apply orb_true_r. Qed.

(** A string contains what stands in its middle. *)
Lemma contains_app pre sub rest : contains (pre +:+ sub +:+ rest) sub = true.
Proof.
  induction pre as [|c pre IH].
  - change ("" +:+ sub +:+ rest) with (sub +:+ rest).
    apply contains_here, startswith_app.
  - rewrite app_cons. by apply contains_cons.
Qed.

Lemma contains_false_cons c s sub :
  contains (String c s) sub = false →
  Str.startswith (String c s) sub = false ∧ contains s sub = false.
Proof. cbn [contains]. by intros [? ?]%orb_false_iff. Qed.

Lemma after_prefix_spec pre s rest :
  after_prefix pre s = Some rest ↔ s = pre +:+ rest.
Proof.
  revert s. induction pre as [|a pre IH]; intros s.
  - simpl. split; [by intros [= ->]|by intros ->].
  - destruct s as [|b s]; [split; discriminate|].
    cbn [after_prefix]. rewrite app_cons.
    destruct (Ascii.eqb_spec a b) as [->|Hne].
    + rewrite IH. split; [by intros ->|by intros [= ->]].
    + split; [discriminate|]. intros [= ? _]. by destruct Hne.
Qed.

Lemma span_spec p s :
  s = (span p s).1 +:+ (span p s).2
  ∧ all_chars p (span p s).1 = true
  ∧ match first_char (span p s).2 with
    | Some c => p c = false
    | None => True
    end.
Proof.
  induction s as [|c s (IH1 & IH2 & IH3)]; [done|].
  cbn [span]. destruct (p c) eqn:Hc.
  - destruct (span p s) as [run rest]. cbn [fst snd] in *.
    rewrite app_cons, <- IH1. cbn [all_chars]. by rewrite Hc, IH2.
  - done.
Qed.

(** A match at the first character, read back. *)
Lemma match_here_spec s site id :
  match_here s = Some (site, id) →
  site ≠ "" ∧ all_chars site_char site = true
  ∧ id ≠ "" ∧ all_chars id_char id = true
  ∧ ∃ rest,
      s = "/site/" +:+ site +:+ "/datasources/" +:+ id +:+ rest
      ∧ match first_char rest with
        | Some c => id_char c = false
        | None => True
        end.
Proof.
  unfold match_here.
  destruct (after_prefix "/site/" s) as [s1|] eqn:H1; [|done].
  apply after_prefix_spec in H1.
  destruct (span_spec site_char s1) as (E1 & A1 & _).
  destruct (span site_char s1) as [site' s2]. cbn [fst snd] in *.
  destruct (String.eqb_spec site' "") as [|Hsite]; [done|].
  destruct (after_prefix "/datasources/" s2) as [s3|] eqn:H2; [|done].
  apply after_prefix_spec in H2.
  destruct (span_spec id_char s3) as (E3 & A3 & F3).
  destruct (span id_char s3) as [id' rest]. cbn [fst snd] in *.
  destruct (String.eqb_spec id' "") as [|Hid]; [done|].
  intros [= <- <-]. repeat split; try done.
  exists rest. split; [|done]. by rewrite H1, E1, H2, E3.
Qed.

(** The leftmost match, read back. *)
Lemma re_search_spec s site id :
  re_search s = Some (site, id) →
  site ≠ "" ∧ all_chars site_char site = true
  ∧ id ≠ "" ∧ all_chars id_char id = true
  ∧ ∃ pre rest,
      s = pre +:+ "/site/" +:+ site +:+ "/datasources/" +:+ id +:+ rest
      ∧ match first_char rest with
        | Some c => id_char c = false
        | None => True
        end.
Proof.
  induction s as [|c s IH].
  - intros H. by vm_compute in H.
  - cbn [re_search]. destruct (match_here (String c s)) as [g|] eqn:Hm.
    + intros [= ->]. apply match_here_spec in Hm as (? & ? & ? & ? & rest & E & ?).
      repeat split; try done. exists "", rest. done.
    + intros H. destruct (IH H) as (? & ? & ? & ? & pre & rest & E & ?).
      repeat split; try done. exists (String c pre), rest.
      by rewrite app_cons, <- E.
Qed.

Lemma match_here_startswith s g :
  match_here s = Some g → Str.startswith s "/site/" = true.
Proof.
  unfold match_here.
  destruct (after_prefix "/site/" s) as [s1|] eqn:H1; [|done].
  apply after_prefix_spec in H1 as ->. intros _. apply startswith_app.
Qed.

Lemma re_search_none s : contains s "/site/" = false → re_search s = None.
Proof.
  induction s as [|c s IH]; [done|].
  intros [Hs Hc]%contains_false_cons. cbn [re_search].
  destruct (match_here (String c s)) as [g|] eqn:Hm.
  - apply match_here_startswith in Hm. congruence.
  - by apply IH.
Qed.

End matching.

Section downloading.
Implicit Types (net : Internet) (url : string) (token : option string).

Lemma download_direct net url token x :
  urlparse net url = Returns x → contains url "/api/" = true →
  download_from_tableau_server net url token
  = fetch net url (headers_of token)
      ([NetAttempting url] ++ no_token_note token).
Proof.
  intros Hp Hc. unfold download_from_tableau_server, no_token_note.
  rewrite Hp, Hc. destruct x as [scheme netloc].
  destruct (option_truthy token); [|done]. by rewrite app_nil_r.
Qed.

Lemma download_web net url token scheme netloc site id :
  urlparse net url = Returns (scheme, netloc) →
  contains url "/api/" = false → re_search url = Some (site, id) →
  download_from_tableau_server net url token
  = fetch net (api_url_of scheme netloc site id) (headers_of token)
      ([NetAttempting url; NetConstructed (api_url_of scheme netloc site id)]
       ++ no_token_note token).
Proof.
  intros Hp Hc Hm. unfold download_from_tableau_server, no_token_note.
  rewrite Hp, Hc, Hm. destruct (option_truthy token); [|done].
  by rewrite app_nil_r.
Qed.

Lemma download_unparsed net url token x :
  urlparse net url = Returns x →
  contains url "/api/" = false → re_search url = None →
  download_from_tableau_server net url token
  = {| returned := Returns None;
       said := [NetAttempting url; NetCouldNotParse]; temp := None |}.
Proof.
  intros Hp Hc Hm. unfold download_from_tableau_server.
  rewrite Hp, Hc, Hm. by destruct x.
Qed.

Lemma fetch_outcome net api headers out :
  returned (fetch net api headers out)
  = match request net api headers with
    | Completed f => Returns (Some f)
    | _ => Returns None
    end
  ∧ temp (fetch net api headers out)
    = match request net api headers with
      | Completed f => Some f
      | Broken leftover => leftover
      | HTTPError _ => None
      end.
Proof. unfold fetch. by destruct (request net api headers). Qed.

Lemma fetch_said net api headers out m :
  m ∈ out → m ∈ said (fetch net api headers out).
Proof.
  intros H. unfold fetch.
  destruct (request net api headers); cbn [said];
    rewrite <- ?app_assoc; apply elem_of_app; by left.
Qed.

Lemma api_url_contains scheme netloc site id :
  contains (api_url_of scheme netloc site id) "/api/" = true.
Proof.
  unfold api_url_of.
  change "/api/3.17/sites/" with ("/api/" +:+ "3.17/sites/").
  rewrite (app_assoc_str "/api/").
  apply contains_app.
Qed.

(** What the download does, by the shape of the URL. *)
Lemma download_cases net url token :
  (∃ e, urlparse net url = Raises e
        ∧ download_from_tableau_server net url token
          = {| returned := Raises e; said := [NetAttempting url];
               temp := None |})
  ∨ download_from_tableau_server net url token
    = {| returned := Returns None;
         said := [NetAttempting url; NetCouldNotParse]; temp := None |}
  ∨ ∃ api out,
      download_from_tableau_server net url token
      = fetch net api (headers_of token) out.
Proof.
  destruct (urlparse net url) as [e|[scheme netloc]] eqn:Hp.
  { left. exists e. split; [done|].
    unfold download_from_tableau_server. by rewrite Hp. }
  right. destruct (contains url "/api/") eqn:Hc.
  { right. eexists _, _. by eapply download_direct. }
  destruct (re_search url) as [[site id]|] eqn:Hm.
  - right. eexists _, _. by eapply download_web.
  - left. by eapply download_unparsed.
Qed.

End downloading.

(** X18.  For a web URL, one without [/api/], in which the pattern is found,
    the request goes to [<scheme>://<netloc>/api/3.17/sites/<site>/datasources/<id>/content]
    with the headers of the token; [<site>] is not empty and has no [/],
    [<id>] is not empty and consists of ASCII letters, digits and hyphens,
    the URL contains [/site/<site>/datasources/<id>], and [<id>] ends where
    the first other character stands.  A file name is returned exactly when
    that request completes. *)
Theorem X18_web_url_request net url token scheme netloc site id :
  urlparse net url = Returns (scheme, netloc) →
  contains url "/api/" = false →
  re_search url = Some (site, id) →
  let api_url :=
    (scheme +:+ "://" +:+ netloc) +:+ "/api/3.17/sites/" +:+ site
      +:+ "/datasources/" +:+ id +:+ "/content" in
  let d := download_from_tableau_server net url token in
  site ≠ "" ∧ all_chars site_char site = true
  ∧ id ≠ "" ∧ all_chars id_char id = true
  ∧ (∃ pre rest,
       url = pre +:+ "/site/" +:+ site +:+ "/datasources/" +:+ id +:+ rest
       ∧ match first_char rest with
         | Some c => id_char c = false
         | None => True
         end)
  ∧ NetConstructed api_url ∈ said d
  ∧ returned d
    = match request net api_url (headers_of token) with
      | Completed f => Returns (Some f)
      | _ => Returns None
      end.
Proof.
  intros Hp Hc Hm api_url d.
  destruct (re_search_spec url site id Hm) as (H1 & H2 & H3 & H4 & H5).
  repeat split; try done.
  - unfold d. rewrite (download_web net url token scheme netloc site id)
      by done.
    apply fetch_said. apply elem_of_app. left.
    apply list_elem_of_further, list_elem_of_here.
  - unfold d. rewrite (download_web net url token scheme netloc site id)
      by done.
    apply fetch_outcome.
Qed.

Lemma X18_witness :
  returned (download_from_tableau_server server page (Some "secret"))
  = Returns (Some "/tmp/t1.tdsx").
Proof.
  destruct (X18_web_url_request server page (Some "secret") "https"
              "tableau.example.com" "mysite" "abc-123" eq_refl eq_refl eq_refl)
    as (_ & _ & _ & _ & _ & _ & H).
  exact H.
Defined.

(** X19.  The API URL that the download constructs for a web URL contains
    [/api/]; given to the download in place of the web URL it is requested
    as it is, so both downloads send the same request and return the same
    value and temporary file. *)
Theorem X19_constructed_url_is_direct net url token scheme netloc site id x :
  urlparse net url = Returns (scheme, netloc) →
  contains url "/api/" = false →
  re_search url = Some (site, id) →
  let api_url := api_url_of scheme netloc site id in
  urlparse net api_url = Returns x →
  contains api_url "/api/" = true
  ∧ returned (download_from_tableau_server net api_url token)
    = returned (download_from_tableau_server net url token)
  ∧ temp (download_from_tableau_server net api_url token)
    = temp (download_from_tableau_server net url token).
Proof.
  intros Hp Hc Hm api_url Hp'.
  pose proof (api_url_contains scheme netloc site id) as Hapi.
  fold api_url in Hapi. split; [done|].
  rewrite (download_web net url token scheme netloc site id) by done.
  rewrite (download_direct net api_url token x) by done.
  fold api_url.
  destruct (fetch_outcome net api_url (headers_of token)
              ([NetAttempting api_url] ++ no_token_note token)) as [-> ->].
  destruct (fetch_outcome net api_url (headers_of token)
              ([NetAttempting url; NetConstructed api_url]
               ++ no_token_note token)) as [-> ->].
  done.
Qed.

Lemma X19_witness :
  returned (download_from_tableau_server server endpoint None)
  = returned (download_from_tableau_server server page None).
Proof.
  destruct (X19_constructed_url_is_direct server page None "https"
              "tableau.example.com" "mysite" "abc-123"
              ("https", "tableau.example.com") eq_refl eq_refl eq_refl eq_refl)
    as (_ & H & _).
  exact H.
Defined.

(** X20.  The only exception that escapes the download is one raised by
    [urlparse].  A file name is returned only for a transfer that completed,
    it is the temporary file, and the last message names it.  When nothing
    is returned the last message reports the failure, and a temporary file
    is left on disk only by a transfer that broke after creating it. *)
Theorem X20_download_outcome net url token :
  let d := download_from_tableau_server net url token in
  (∀ e, returned d = Raises e ↔ urlparse net url = Raises e)
  ∧ (∀ f, returned d = Returns (Some f) →
          temp d = Some f
          ∧ last (said d) = Some (NetDownloaded f)
          ∧ ∃ api_url, request net api_url (headers_of token) = Completed f)
  ∧ (returned d = Returns None →
     (∃ m, last (said d) = Some m
           ∧ m ∈ [NetCouldNotParse; NetHTTPError; NetAuthenticationFailed;
                  NetNotFound; NetError])
     ∧ ∀ f, temp d = Some f →
            ∃ api_url,
              request net api_url (headers_of token) = Broken (Some f)).
Proof.
  intros d. unfold d.
  destruct (download_cases net url token)
    as [(e & Hp & ->)|[Hd|(api & out & Hd)]].
  - simpl. split; [|split; [done|done]].
    intros e'. rewrite Hp. split; by intros [= ->].
  - assert (∀ e, urlparse net url ≠ Raises e) as Hp.
    { intros e He. revert Hd. unfold download_from_tableau_server.
      by rewrite He. }
    rewrite Hd. simpl. split; [|split; [done|]].
    + intros e. split; [done|]. intros He. by destruct (Hp e).
    + intros _. split; [|done]. exists NetCouldNotParse. split; [done|].
      apply list_elem_of_here.
  - assert (∀ e, urlparse net url ≠ Raises e) as Hp.
    { intros e He.
      assert (returned (download_from_tableau_server net url token)
              = Raises e) as Hr.
      { unfold download_from_tableau_server. by rewrite He. }
      rewrite Hd in Hr. revert Hr. unfold fetch.
      by destruct (request net api (headers_of token)). }
    rewrite Hd. clear Hd. split; [|split].
    + intros e. split; [|intros He; by destruct (Hp e)].
      unfold fetch. by destruct (request net api (headers_of token)).
    + intros f. unfold fetch.
      destruct (request net api (headers_of token)) as [c|l|g] eqn:Hreq;
        cbn [returned said temp]; try done.
      intros [= ->]. split; [done|]. split; [|by exists api].
      apply last_snoc.
    + unfold fetch.
      destruct (request net api (headers_of token)) as [c|l|g] eqn:Hreq;
        cbn [returned said temp]; intros Hret; [| |done].
      * split; [|done].
        destruct (c =? 401)%nat; [|destruct (c =? 404)%nat].
        -- exists NetAuthenticationFailed. split.
           ++ rewrite app_assoc. apply last_snoc.
           ++ set_solver.
        -- exists NetNotFound. split.
           ++ rewrite app_assoc. apply last_snoc.
           ++ set_solver.
        -- exists NetHTTPError. split.
           ++ rewrite app_nil_r. apply last_snoc.
           ++ set_solver.
      * split.
        -- exists NetError. split; [apply last_snoc|]. set_solver.
        -- intros f ->. by exists api.
Qed.

(** X21.  A URL that contains neither [/api/] nor [/site/] is turned down
    before anything is sent: the download prints that it could not parse the
    URL and returns nothing, leaves no temporary file, and does so whatever
    the server would have answered. *)
Theorem X21_unrecognised_url net url token x :
  urlparse net url = Returns x →
  contains url "/api/" = false → contains url "/site/" = false →
  download_from_tableau_server net url token
  = {| returned := Returns None;
       said := [NetAttempting url; NetCouldNotParse]; temp := None |}
  ∧ (∀ net', urlparse net' url = urlparse net url →
             download_from_tableau_server net' url token
             = download_from_tableau_server net url token).
Proof.
  intros Hp Hapi Hsite.
  assert (∀ n, urlparse n url = Returns x →
            download_from_tableau_server n url token
            = {| returned := Returns None;
                 said := [NetAttempting url; NetCouldNotParse];
                 temp := None |}) as H.
  { intros n Hn. apply (download_unparsed n url token x); try done.
    by apply re_search_none. }
  split; [by apply H|].
  intros net' Hnet'. rewrite (H net) by done. apply H. by rewrite Hnet'.
Qed.

Lemma X21_witness :
  returned (download_from_tableau_server server
              "https://tableau.example.com/views/sales" (Some "secret"))
  = Returns None.
Proof.
  by rewrite (proj1 (X21_unrecognised_url server
                       "https://tableau.example.com/views/sales"
                       (Some "secret") ("https", "tableau.example.com")
                       eq_refl eq_refl eq_refl)).
Defined.

(** ** X22: the ends of the values *)

Section ends.
Import Str.

Lemma rstrip_cons c s :
  rstrip (String c s)
  = match rstrip s with
    | "" => if isspace c then "" else String c ""
    | r => String c r
    end.
Proof. reflexivity. Qed.

Lemma rstrip_last s :
  match last_char (rstrip s) with
  | Some c => isspace c = false
  | None => True
  end.
Proof.
  induction s as [|c s IH]; [done|]. rewrite rstrip_cons.
  destruct (rstrip s) as [|a r].
  - destruct (isspace c) eqn:Hc; [done|]. exact Hc.
  - exact IH.
Qed.

Lemma strip_first s :
  match first_char (strip s) with
  | Some c => isspace c = false
  | None => True
  end.
Proof.
  unfold strip. destruct (lstrip_shape s) as [->|(c & r & -> & Hc)]; [done|].
  destruct (rstrip_keeps_head c r Hc) as [r' ->]. exact Hc.
Qed.

Lemma ends_of_trimmed v :
  trimmed v →
  (∃ a, first_char v = Some a ∧ isspace a = false)
  ∧ (∃ b, last_char v = Some b ∧ isspace b = false).
Proof.
  intros [Hne Hv]. pose proof (strip_first v) as Hf.
  pose proof (rstrip_last (lstrip v)) as Hl. fold (strip v) in Hl.
  rewrite Hv in Hf, Hl. split.
  - destruct (first_char v) as [a|] eqn:E; [eauto|]. by destruct v.
  - destruct (last_char v) as [b|] eqn:E; [eauto|].
    exfalso. clear -E Hne. induction v as [|c v IH]; [done|].
    cbn [last_char] in E. destruct v; [done|]. by apply IH.
Qed.

End ends.

(** X22.  No value of the mapping that is returned starts or ends with a
    white-space character: its first and its last character exist and are
    not white space. *)
Theorem X22_values_have_no_outer_space w tdsx_path output_dir d k v :
  value (extract_sql_from_tdsx w tdsx_path output_dir) = Returns d →
  (k, v) ∈ d →
  (∃ a, first_char v = Some a ∧ Str.isspace a = false)
  ∧ (∃ b, last_char v = Some b ∧ Str.isspace b = false).
Proof.
  intros Hd Hin. apply ends_of_trimmed.
  pose proof (returned_values_trimmed w tdsx_path output_dir d Hd) as Hall.
  rewrite Forall_forall in Hall. exact (Hall _ Hin).
Qed.

Lemma X22_witness :
  (∃ a, first_char "SELECT 1" = Some a ∧ Str.isspace a = false)
  ∧ (∃ b, last_char "SELECT 1" = Some b ∧ Str.isspace b = false).
Proof.
  apply (X22_values_have_no_outer_space
           (one [conn "pg" [rel "  SELECT 1
 "]]) "x.tdsx" None [("pg", "SELECT 1")] "pg" "SELECT 1").
  - reflexivity.
  - apply list_elem_of_here.
Defined.
